(** * CircularBuffer.h: a fixed-size circular buffer

    A shallow embedding of the class template
    [CircularBuffer<TYPE, LEN>] of [CircularBuffer.h], and the properties of
    its operations.

    Conventions of the embedding.
    - [int] and [unsigned int] are 32 bits wide.  A value of either type is a
      [Z]; every conversion and every wrap-around of the source is written
      out with [to_unsigned] and [to_int].  Signed overflow, which C++ leaves
      undefined, and the conversion of an out-of-range [unsigned int] to
      [int] are both taken modulo 2^32 (two's complement).
    - [TYPE data[LEN]] is a function from slot numbers to [TYPE]; only the
      slots [0 .. LEN-1] belong to the array.  The indeterminate contents of
      an array that no constructor has written is an explicit argument
      ([uninit]) of the constructors.
    - A loop of the source is a [Fixpoint] on a fuel that keeps the loop
      condition of the source; running out of fuel is [None].
    - [counter], [total] and the loop counters are [int]: the theorems about
      them take a capacity [LEN <= INT_MAX], beyond which [counter + 1] and
      [++total] overflow, and [prev()] leaves the range of the cursor. *)

From Stdlib Require Import ZArith List Lia Bool.
Import ListNotations.
Local Open Scope Z_scope.

(** ** 32-bit machine integers *)

Definition UINT_MODULUS : Z := 4294967296.
Definition INT_MAX : Z := 2147483647.
Definition INT_MIN : Z := -2147483648.

(** Conversion to [unsigned int]; also the wrap-around of unsigned
    arithmetic. *)
Definition to_unsigned (x : Z) : Z := x mod UINT_MODULUS.

(** Conversion to [int]; also the wrap-around of signed arithmetic. *)
Definition to_int (x : Z) : Z := (x + 2147483648) mod UINT_MODULUS - 2147483648.

Definition is_int (x : Z) : Prop := INT_MIN <= x <= INT_MAX.

(** [a + b] and [a - b] on two [unsigned int]. *)
Definition uint_add (a b : Z) : Z := to_unsigned (a + b).
Definition uint_sub (a b : Z) : Z := to_unsigned (a - b).

(** [a % b] on two [unsigned int], [b] not zero. *)
Definition uint_rem (a b : Z) : Z := a mod b.

(** [a + b] on two [int]. *)
Definition int_add (a b : Z) : Z := to_int (a + b).

(** ** Arithmetic element types

    [minimum()] and [maximum()] are guarded by
    [static_assert(std::is_arithmetic<TYPE>::value, ...)] and compare
    elements with [<] and [>].  The class below is that trait: the
    comparison [less], which is a strict order.  [a > b] is [less b a]. *)

Class Arithmetic (TYPE : Type) : Type := {
  less : TYPE -> TYPE -> bool;
  less_irrefl : forall a, less a a = false;
  less_trans : forall a b c, less a b = true -> less b c = true -> less a c = true
}.

Definition greater {TYPE : Type} `{Arithmetic TYPE} (a b : TYPE) : bool := less b a.

(** The integer types, with the order of the integers. *)
#[export] Instance Arithmetic_Z : Arithmetic Z := {|
  less := Z.ltb;
  less_irrefl := Z.ltb_irrefl;
  less_trans := fun a b c Hab Hbc =>
    proj2 (Z.ltb_lt a c)
      (Z.lt_trans a b c (proj1 (Z.ltb_lt a b) Hab) (proj1 (Z.ltb_lt b c) Hbc))
|}.

(** The floating-point types, as far as [<] and [>] see them: a number or
    a NaN.  Every comparison with a NaN is false. *)
Inductive floating : Type :=
| NaN
| Num (x : Z).

Definition less_floating (a c : floating) : bool :=
  match a, c with
  | Num x, Num y => x <? y
  | _, _ => false
  end.

#[export] Instance Arithmetic_floating : Arithmetic floating := {|
  less := less_floating;
  less_irrefl := ltac:(intros [| x]; simpl; auto using Z.ltb_irrefl);
  less_trans := ltac:(intros [| x] [| y] [| z]; simpl; try discriminate;
                      rewrite !Z.ltb_lt; lia)
|}.

(** [m] is the least, respectively the greatest, of the values of the
    slots [0 .. LEN-1] of [d]: the value of one of them, and equal to or
    less than (greater than) the value of each. *)
Definition is_least {TYPE : Type} `{Arithmetic TYPE}
  (LEN : Z) (d : Z -> TYPE) (m : TYPE) : Prop :=
  (exists i, 0 <= i < LEN /\ d i = m)
  /\ (forall i, 0 <= i < LEN -> m = d i \/ less m (d i) = true).

Definition is_greatest {TYPE : Type} `{Arithmetic TYPE}
  (LEN : Z) (d : Z -> TYPE) (m : TYPE) : Prop :=
  (exists i, 0 <= i < LEN /\ d i = m)
  /\ (forall i, 0 <= i < LEN -> m = d i \/ greater m (d i) = true).

(** ** The class *)

Section CircularBuffer.

Variable TYPE : Type.

(** The template argument [unsigned int LEN];
    [static_assert(LEN > 0, ...)] is a hypothesis of the theorems. *)
Variable LEN : Z.

(** The data members: [TYPE data[LEN]; int counter = 0; int total = 0;] *)
Record CircularBuffer : Type := mkBuffer {
  data : Z -> TYPE;
  counter : Z;
  total : Z
}.

(** [a[i] = v] on an array. *)
Definition store (a : Z -> TYPE) (i : Z) (v : TYPE) : Z -> TYPE :=
  fun j => if j =? i then v else a j.

(** [for (int i = start; i < LEN; ++i) acc = body(i, acc);]
    The comparison [i < LEN] is between an [int] and an [unsigned int],
    so [i] is converted to [unsigned int]. *)
Fixpoint for_loop {A : Type} (fuel : nat) (i : Z) (body : Z -> A -> A) (acc : A)
  : option A :=
  if to_unsigned i <? LEN then
    match fuel with
    | O => None
    | S fuel' => for_loop fuel' (int_add i 1) body (body i acc)
    end
  else Some acc.

(** [CircularBuffer() {}]: the array is not initialised. *)
Definition default_ctor (uninit : Z -> TYPE) : CircularBuffer :=
  mkBuffer uninit 0 0.

(** [CircularBuffer(TYPE default_value)]: every slot is set to
    [default_value]; [counter] and [total] keep their initialisers. *)
Definition fill_ctor (uninit : Z -> TYPE) (default_value : TYPE)
  : option CircularBuffer :=
  match for_loop (Z.to_nat LEN) 0 (fun i d => store d i default_value) uninit with
  | Some d => Some (mkBuffer d 0 0)
  | None => None
  end.

(** The slot [index % LEN] of [operator[]]: [index] is an [int] and [LEN]
    an [unsigned int], so [index] is converted to [unsigned int] first. *)
Definition slot (index : Z) : Z := uint_rem (to_unsigned index) LEN.

(** [TYPE operator[](const int index) const] *)
Definition get (b : CircularBuffer) (index : Z) : TYPE :=
  data b (slot index).

(** [TYPE& operator[](const int index)], used for a write
    [buffer[index] = v]. *)
Definition set (b : CircularBuffer) (index : Z) (v : TYPE) : CircularBuffer :=
  mkBuffer (store (data b) (slot index) v) (counter b) (total b).

(** [void append(const TYPE value)] *)
Definition append (value : TYPE) (b : CircularBuffer) : CircularBuffer :=
  mkBuffer
    (store (data b) (counter b) value)
    (to_int (uint_rem (to_unsigned (int_add (counter b) 1)) LEN))
    (if to_unsigned (total b) <? LEN then int_add (total b) 1 else total b).

(** [int index() const] *)
Definition index (b : CircularBuffer) : Z := counter b.

(** [TYPE& current()], read and written. *)
Definition current (b : CircularBuffer) : TYPE := data b (counter b).

Definition set_current (b : CircularBuffer) (v : TYPE) : CircularBuffer :=
  mkBuffer (store (data b) (counter b) v) (counter b) (total b).

(** [int count() const] *)
Definition count (b : CircularBuffer) : Z := total b.

(** [void prev()]: [counter = (counter + LEN - 1) % LEN;] *)
Definition prev (b : CircularBuffer) : CircularBuffer :=
  mkBuffer
    (data b)
    (to_int (uint_rem (uint_sub (uint_add (to_unsigned (counter b)) LEN) 1) LEN))
    (total b).

(** [void next()]: [counter = (counter + 1) % LEN;] *)
Definition next (b : CircularBuffer) : CircularBuffer :=
  mkBuffer
    (data b)
    (to_int (uint_rem (to_unsigned (int_add (counter b) 1)) LEN))
    (total b).

(** [populate(first, args...)]: [append(first); populate(args...);] and
    [populate(arg)]: [append(arg);] *)
Fixpoint populate (args : list TYPE) (b : CircularBuffer) : CircularBuffer :=
  match args with
  | [] => b
  | first :: args' => populate args' (append first b)
  end.

(** [CircularBuffer(const ARGS&... args) { this->populate(args...); }] *)
Definition list_ctor (uninit : Z -> TYPE) (args : list TYPE) : CircularBuffer :=
  populate args (default_ctor uninit).

(** *** The iterator *)

Record iterator : Type := mkIterator {
  ptr : Z -> TYPE;
  offset : Z
}.

(** [iterator operator++()] *)
Definition iterator_incr (it : iterator) : iterator :=
  mkIterator (ptr it) (int_add (offset it) 1).

(** [bool operator!=(const iterator& other) const] *)
Definition iterator_neq (it other : iterator) : bool :=
  negb (offset it =? offset other).

(** [const TYPE& operator*() const]: [ptr[offset % LEN]] *)
Definition iterator_deref (it : iterator) : TYPE :=
  ptr it (uint_rem (to_unsigned (offset it)) LEN).

(** [iterator begin() const]: [counter + LEN + LEN - total] is computed in
    [unsigned int] and converted to the [int] parameter of the iterator. *)
Definition begin (b : CircularBuffer) : iterator :=
  mkIterator (data b)
    (to_int (uint_sub (uint_add (uint_add (to_unsigned (counter b)) LEN) LEN)
                      (to_unsigned (total b)))).

(** [iterator end() const] *)
Definition end_ (b : CircularBuffer) : iterator :=
  mkIterator (data b)
    (to_int (uint_add (uint_add (to_unsigned (counter b)) LEN) LEN)).

(** The range-based [for (const TYPE& x : buffer)], which is
    [for (it = begin(), e = end(); it != e; ++it) { x = *it; ... }];
    the result is the list of the values of [x]. *)
Fixpoint range_for (fuel : nat) (it e : iterator) : option (list TYPE) :=
  if iterator_neq it e then
    match fuel with
    | O => None
    | S fuel' =>
        match range_for fuel' (iterator_incr it) e with
        | Some xs => Some (iterator_deref it :: xs)
        | None => None
        end
    end
  else Some [].

(** The fuel of an iteration: the distance from [begin()] to [end()] in
    32-bit arithmetic, which is the number of [++] after which the two
    offsets are equal. *)
Definition iterate (b : CircularBuffer) : option (list TYPE) :=
  range_for (Z.to_nat (to_unsigned (offset (end_ b) - offset (begin b))))
            (begin b) (end_ b).

(** *** The state invariant and the operations as a type *)

(** [counter] is a slot of the array and [total] is at most [LEN]. *)
Definition invariant (b : CircularBuffer) : Prop :=
  0 <= counter b < LEN /\ 0 <= total b <= LEN.

(** The public member functions that can be called on a constructed
    buffer.  Those that the source declares [const] leave the object as it
    is. *)
Inductive operation : Type :=
| OpAppend (value : TYPE)
| OpPopulate (args : list TYPE)
| OpPrev
| OpNext
| OpSet (index : Z) (v : TYPE)
| OpSetCurrent (v : TYPE)
| OpGet (index : Z)
| OpIndex
| OpCount
| OpIterate
| OpMinimum
| OpMaximum.

Definition run (op : operation) (b : CircularBuffer) : CircularBuffer :=
  match op with
  | OpAppend value => append value b
  | OpPopulate args => populate args b
  | OpPrev => prev b
  | OpNext => next b
  | OpSet i v => set b i v
  | OpSetCurrent v => set_current b v
  | OpGet _ | OpIndex | OpCount | OpIterate | OpMinimum | OpMaximum => b
  end.

(** The states of a buffer: those that a constructor makes, and those
    that an operation makes from one of them. *)
Inductive reachable : CircularBuffer -> Prop :=
| reachable_default (uninit : Z -> TYPE) :
    reachable (default_ctor uninit)
| reachable_fill (uninit : Z -> TYPE) (v : TYPE) (b : CircularBuffer) :
    fill_ctor uninit v = Some b -> reachable b
| reachable_list (uninit : Z -> TYPE) (args : list TYPE) :
    reachable (list_ctor uninit args)
| reachable_run (op : operation) (b : CircularBuffer) :
    reachable b -> reachable (run op b).

(** *** minimum() and maximum() *)

Context {arith : Arithmetic TYPE}.

(** [TYPE value = data[0];
     for (int i = 1; i < LEN; ++i) if (data[i] < value) value = data[i];] *)
Definition minimum (b : CircularBuffer) : option TYPE :=
  for_loop (Z.to_nat LEN) 1
    (fun i value => if less (data b i) value then data b i else value)
    (data b 0).

(** The same with [data[i] > value]. *)
Definition maximum (b : CircularBuffer) : option TYPE :=
  for_loop (Z.to_nat LEN) 1
    (fun i value => if greater (data b i) value then data b i else value)
    (data b 0).

End CircularBuffer.

Arguments mkBuffer {TYPE} data counter total.
Arguments data {TYPE}.
Arguments counter {TYPE}.
Arguments total {TYPE}.
Arguments store {TYPE} a i v.
Arguments default_ctor {TYPE} uninit.
Arguments fill_ctor {TYPE} LEN uninit default_value.
Arguments get {TYPE} LEN b index.
Arguments set {TYPE} LEN b index v.
Arguments append {TYPE} LEN value b.
Arguments index {TYPE} b.
Arguments current {TYPE} b.
Arguments set_current {TYPE} b v.
Arguments count {TYPE} b.
Arguments prev {TYPE} LEN b.
Arguments next {TYPE} LEN b.
Arguments populate {TYPE} LEN args b.
Arguments list_ctor {TYPE} LEN uninit args.
Arguments mkIterator {TYPE} ptr offset.
Arguments ptr {TYPE}.
Arguments offset {TYPE}.
Arguments iterator_incr {TYPE} it.
Arguments iterator_neq {TYPE} it other.
Arguments iterator_deref {TYPE} LEN it.
Arguments begin {TYPE} LEN b.
Arguments end_ {TYPE} LEN b.
Arguments range_for {TYPE} LEN fuel it e.
Arguments iterate {TYPE} LEN b.
Arguments minimum {TYPE} LEN {arith} b.
Arguments maximum {TYPE} LEN {arith} b.
Arguments invariant {TYPE} LEN b.
Arguments OpAppend {TYPE}.
Arguments OpPopulate {TYPE}.
Arguments OpPrev {TYPE}.
Arguments OpNext {TYPE}.
Arguments OpSet {TYPE}.
Arguments OpSetCurrent {TYPE}.
Arguments OpGet {TYPE}.
Arguments OpIndex {TYPE}.
Arguments OpCount {TYPE}.
Arguments OpIterate {TYPE}.
Arguments OpMinimum {TYPE}.
Arguments OpMaximum {TYPE}.
Arguments run {TYPE} LEN op b.
Arguments reachable {TYPE} LEN b.

(** The public data member [const int length = LEN;]: the
    [unsigned int] template argument converted to [int]. *)
Module Members.
Definition length (LEN : Z) : Z := to_int LEN.
End Members.

(** ** Machine integers: the cases without wrap-around *)

(** Goals of 32-bit arithmetic with a constant modulus are linear once
    every [mod] is replaced by its quotient and remainder. *)
Ltac wrap_arith :=
  unfold uint_add, uint_sub, int_add, to_unsigned, to_int, is_int,
    INT_MIN, INT_MAX, UINT_MODULUS in *;
  Z.div_mod_to_equations; lia.

Lemma to_unsigned_small (x : Z) : 0 <= x < UINT_MODULUS -> to_unsigned x = x.
Proof. intros Hx. unfold to_unsigned. now apply Z.mod_small. Qed.

Lemma to_unsigned_range (x : Z) : 0 <= to_unsigned x < UINT_MODULUS.
Proof. unfold to_unsigned, UINT_MODULUS. apply Z.mod_pos_bound. lia. Qed.

Lemma to_int_small (x : Z) : is_int x -> to_int x = x.
Proof.
  unfold is_int, INT_MIN, INT_MAX, to_int, UINT_MODULUS. intros Hx.
  rewrite Z.mod_small; lia.
Qed.

Lemma to_unsigned_to_int (x : Z) : to_unsigned (to_int x) = to_unsigned x.
Proof.
  unfold to_unsigned, to_int, UINT_MODULUS.
  rewrite Zminus_mod_idemp_l. f_equal. lia.
Qed.

Lemma to_int_to_unsigned (x : Z) : to_int (to_unsigned x) = to_int x.
Proof.
  unfold to_unsigned, to_int, UINT_MODULUS.
  rewrite Zplus_mod_idemp_l. reflexivity.
Qed.

Lemma to_unsigned_add_l (x y : Z) : to_unsigned (to_unsigned x + y) = to_unsigned (x + y).
Proof. unfold to_unsigned. apply Zplus_mod_idemp_l. Qed.

Lemma to_int_add_l (x y : Z) : to_int (to_int x + y) = to_int (x + y).
Proof.
  rewrite <- (to_int_to_unsigned (to_int x + y)), <- (to_int_to_unsigned (x + y)).
  f_equal. rewrite <- to_unsigned_add_l, to_unsigned_to_int.
  apply to_unsigned_add_l.
Qed.

(** Two [int] made from [x] and [y] are equal exactly when [x] and [y] are
    congruent modulo 2^32. *)
Lemma to_int_eq_iff (x y : Z) : to_int x = to_int y <-> to_unsigned x = to_unsigned y.
Proof.
  split; intros H.
  - rewrite <- (to_unsigned_to_int x), <- (to_unsigned_to_int y). now rewrite H.
  - rewrite <- (to_int_to_unsigned x), <- (to_int_to_unsigned y). now rewrite H.
Qed.

(** ** The cursor and the count *)

Section Cursor.

Variable LEN : Z.
Hypothesis LEN_pos : 0 < LEN.
Hypothesis LEN_int : LEN <= INT_MAX.

(** [(counter + 1) % LEN], as [append()] and [next()] compute it. *)
Lemma counter_succ (c : Z) :
  0 <= c < LEN ->
  to_int (uint_rem (to_unsigned (int_add c 1)) LEN) = (c + 1) mod LEN.
Proof.
  intros Hc. unfold int_add, uint_rem, INT_MAX in *.
  rewrite (to_int_small (c + 1)) by (unfold is_int, INT_MIN, INT_MAX; lia).
  rewrite to_unsigned_small by (unfold UINT_MODULUS; lia).
  pose proof (Z.mod_pos_bound (c + 1) LEN LEN_pos).
  apply to_int_small. unfold is_int, INT_MIN, INT_MAX. lia.
Qed.

(** [(counter + LEN - 1) % LEN], as [prev()] computes it. *)
Lemma counter_pred (c : Z) :
  0 <= c < LEN ->
  to_int (uint_rem (uint_sub (uint_add (to_unsigned c) LEN) 1) LEN)
  = (c + LEN - 1) mod LEN.
Proof.
  intros Hc. unfold uint_add, uint_sub, uint_rem, INT_MAX in *.
  rewrite (to_unsigned_small c) by (unfold UINT_MODULUS; lia).
  rewrite (to_unsigned_small (c + LEN)) by (unfold UINT_MODULUS; lia).
  rewrite to_unsigned_small by (unfold UINT_MODULUS; lia).
  pose proof (Z.mod_pos_bound (c + LEN - 1) LEN LEN_pos).
  apply to_int_small. unfold is_int, INT_MIN, INT_MAX. lia.
Qed.

(** [if (total < LEN) ++total;] *)
Lemma total_succ (t : Z) :
  0 <= t <= LEN ->
  (if to_unsigned t <? LEN then int_add t 1 else t) = Z.min (t + 1) LEN.
Proof.
  intros Ht. unfold INT_MAX in *.
  rewrite to_unsigned_small by (unfold UINT_MODULUS; lia).
  destruct (Z.ltb_spec t LEN) as [Hlt | Hge].
  - unfold int_add. rewrite to_int_small by (unfold is_int, INT_MIN, INT_MAX; lia).
    lia.
  - lia.
Qed.

Context {TYPE : Type}.
Implicit Types (b : CircularBuffer TYPE) (v : TYPE) (l : list TYPE).

Lemma append_counter v b :
  invariant LEN b -> counter (append LEN v b) = (counter b + 1) mod LEN.
Proof. intros [Hc _]. simpl. now apply counter_succ. Qed.

Lemma append_total v b :
  invariant LEN b -> total (append LEN v b) = Z.min (total b + 1) LEN.
Proof. intros [_ Ht]. simpl. now apply total_succ. Qed.

Lemma append_invariant v b : invariant LEN b -> invariant LEN (append LEN v b).
Proof.
  intros Hb. unfold invariant.
  rewrite append_counter, append_total by assumption.
  destruct Hb as [_ Ht].
  pose proof (Z.mod_pos_bound (counter b + 1) LEN LEN_pos). lia.
Qed.

Lemma next_counter b :
  invariant LEN b -> counter (next LEN b) = (counter b + 1) mod LEN.
Proof. intros [Hc _]. simpl. now apply counter_succ. Qed.

Lemma prev_counter b :
  invariant LEN b -> counter (prev LEN b) = (counter b + LEN - 1) mod LEN.
Proof. intros [Hc _]. simpl. now apply counter_pred. Qed.

Lemma next_invariant b : invariant LEN b -> invariant LEN (next LEN b).
Proof.
  intros Hb. unfold invariant. rewrite next_counter by assumption.
  destruct Hb as [_ Ht]. simpl.
  pose proof (Z.mod_pos_bound (counter b + 1) LEN LEN_pos). lia.
Qed.

Lemma prev_invariant b : invariant LEN b -> invariant LEN (prev LEN b).
Proof.
  intros Hb. unfold invariant. rewrite prev_counter by assumption.
  destruct Hb as [_ Ht]. simpl.
  pose proof (Z.mod_pos_bound (counter b + LEN - 1) LEN LEN_pos). lia.
Qed.

Lemma default_ctor_invariant (uninit : Z -> TYPE) :
  invariant LEN (default_ctor uninit).
Proof. unfold invariant. simpl. lia. Qed.

Lemma populate_app l1 l2 b :
  populate LEN (l1 ++ l2) b = populate LEN l2 (populate LEN l1 b).
Proof. revert b. induction l1 as [| x l1 IH]; intros b; simpl; auto. Qed.

(** [populate] keeps the invariant, never lowers [total] and keeps a full
    buffer full. *)
Lemma populate_invariant l b :
  invariant LEN b ->
  invariant LEN (populate LEN l b)
  /\ total b <= total (populate LEN l b)
  /\ (total b = LEN -> total (populate LEN l b) = LEN).
Proof.
  revert b. induction l as [| x l IH]; intros b Hb; simpl.
  - repeat split; try apply Hb; lia.
  - destruct (IH (append LEN x b) (append_invariant x b Hb)) as (Hi & Hle & Hfull).
    rewrite append_total in Hle, Hfull by assumption.
    destruct Hb as [_ Ht].
    repeat split; try apply Hi; lia.
Qed.

(** The cursor and the count after [N] appends into a fresh buffer. *)
Lemma populate_counter_total (uninit : Z -> TYPE) l :
  let b := populate LEN l (default_ctor uninit) in
  counter b = Z.of_nat (length l) mod LEN
  /\ total b = Z.min (Z.of_nat (length l)) LEN.
Proof.
  induction l as [| x l IH] using rev_ind; simpl.
  - rewrite Z.mod_0_l by lia. lia.
  - rewrite populate_app. simpl.
    assert (Hinv : invariant LEN (populate LEN l (default_ctor uninit))).
    { apply populate_invariant, default_ctor_invariant. }
    simpl in IH. destruct IH as [Hc Ht].
    change (counter (append LEN x (populate LEN l (default_ctor uninit)))
            = Z.of_nat (length (l ++ [x])) mod LEN
            /\ total (append LEN x (populate LEN l (default_ctor uninit)))
               = Z.min (Z.of_nat (length (l ++ [x]))) LEN).
    rewrite append_counter, append_total by assumption.
    rewrite Hc, Ht, length_app. simpl length.
    rewrite Nat2Z.inj_add. simpl Z.of_nat.
    rewrite Zplus_mod_idemp_l. split; [reflexivity | lia].
Qed.

End Cursor.

(** ** Iteration *)

Section Iteration.

Variable LEN : Z.
Context {TYPE : Type}.
Implicit Types (b : CircularBuffer TYPE) (d : Z -> TYPE).

Lemma to_unsigned_shift_neq (x n : Z) :
  0 < n < UINT_MODULUS -> to_int x <> to_int (x + n).
Proof.
  intros Hn Heq. apply to_int_eq_iff in Heq.
  unfold to_unsigned, UINT_MODULUS in *.
  Z.div_mod_to_equations. lia.
Qed.

Lemma range_for_S (fuel : nat) (it e : iterator TYPE) :
  range_for LEN (S fuel) it e
  = if iterator_neq it e then
      match range_for LEN fuel (iterator_incr it) e with
      | Some xs => Some (iterator_deref LEN it :: xs)
      | None => None
      end
    else Some [].
Proof. reflexivity. Qed.

(** An iterator that is [k] increments before the end iterator yields the
    [k] slots of the offsets in between, whatever the two offsets are. *)
Lemma range_for_steps d d' (k : nat) :
  forall (x : Z) (fuel : nat),
    Z.of_nat k < UINT_MODULUS ->
    (k <= fuel)%nat ->
    range_for LEN fuel (mkIterator d (to_int x))
                       (mkIterator d' (to_int (x + Z.of_nat k)))
    = Some (map (fun j => d (uint_rem (to_unsigned (x + Z.of_nat j)) LEN))
                (seq 0 k)).
Proof.
  induction k as [| k IH]; intros x fuel Hk Hfuel.
  - replace (x + Z.of_nat 0) with x by lia.
    destruct fuel; simpl; unfold iterator_neq; simpl;
      now rewrite Z.eqb_refl.
  - destruct fuel as [| fuel]; [lia |].
    rewrite range_for_S.
    assert (Hneq : iterator_neq (mkIterator d (to_int x))
                     (mkIterator d' (to_int (x + Z.of_nat (S k)))) = true).
    { unfold iterator_neq. simpl offset. apply negb_true_iff, Z.eqb_neq.
      apply to_unsigned_shift_neq. lia. }
    rewrite Hneq.
    unfold iterator_incr, int_add. simpl ptr. simpl offset.
    rewrite to_int_add_l.
    replace (x + Z.of_nat (S k)) with (x + 1 + Z.of_nat k) by lia.
    rewrite IH by lia.
    unfold iterator_deref. simpl ptr. simpl offset.
    rewrite to_unsigned_to_int.
    rewrite <- cons_seq. rewrite map_cons. rewrite Z.add_0_r.
    do 2 f_equal. rewrite <- seq_shift, map_map.
    apply map_ext. intros j. do 3 f_equal. lia.
Qed.

Lemma begin_offset b :
  offset (begin LEN b) = to_int (counter b + LEN + LEN - total b).
Proof. simpl. wrap_arith. Qed.

Lemma end_offset b : offset (end_ LEN b) = to_int (counter b + LEN + LEN).
Proof. simpl. wrap_arith. Qed.

(** Iteration always ends, in every state and for every capacity: it
    yields [total] slots (as an [unsigned int]), from the one of offset
    [counter + LEN + LEN - total] on. *)
Lemma iterate_slots b :
  iterate LEN b
  = Some (map (fun j => data b (uint_rem
                 (to_unsigned (counter b + LEN + LEN - total b + Z.of_nat j)) LEN))
              (seq 0 (Z.to_nat (to_unsigned (total b))))).
Proof.
  unfold iterate.
  pose proof (to_unsigned_range (total b)) as Hrange.
  assert (Hdist : to_unsigned (offset (end_ LEN b) - offset (begin LEN b))
                  = to_unsigned (total b)).
  { rewrite begin_offset, end_offset. wrap_arith. }
  rewrite Hdist.
  assert (Hend : end_ LEN b
                 = mkIterator (data b)
                     (to_int (counter b + LEN + LEN - total b
                              + Z.of_nat (Z.to_nat (to_unsigned (total b)))))).
  { change (end_ LEN b) with (mkIterator (data b) (offset (end_ LEN b))).
    f_equal. rewrite end_offset, Z2Nat.id by lia. wrap_arith. }
  rewrite Hend.
  assert (Hbegin : begin LEN b
                   = mkIterator (data b) (to_int (counter b + LEN + LEN - total b))).
  { change (begin LEN b) with (mkIterator (data b) (offset (begin LEN b))).
    f_equal. apply begin_offset. }
  rewrite Hbegin.
  apply range_for_steps; [rewrite Z2Nat.id by lia; lia | lia].
Qed.

Hypothesis LEN_pos : 0 < LEN.
Hypothesis LEN_small : 3 * LEN <= UINT_MODULUS + 1.

(** While [counter + LEN + LEN] does not wrap around, the slots are the
    [total] slots before the cursor. *)
Lemma iterate_window b :
  invariant LEN b ->
  iterate LEN b
  = Some (map (fun j => data b ((counter b - total b + Z.of_nat j) mod LEN))
              (seq 0 (Z.to_nat (total b)))).
Proof.
  intros [Hc Ht]. rewrite iterate_slots.
  rewrite (to_unsigned_small (total b)) by lia.
  f_equal. apply map_ext_in. intros j Hj. apply in_seq in Hj.
  f_equal. unfold uint_rem.
  rewrite to_unsigned_small by lia.
  replace (counter b + LEN + LEN - total b + Z.of_nat j)
    with (counter b - total b + Z.of_nat j + 2 * LEN) by lia.
  apply Z.mod_add. lia.
Qed.

End Iteration.

(** ** The contents after a sequence of appends *)

Section Appends.

Variable LEN : Z.
Hypothesis LEN_pos : 0 < LEN.
Hypothesis LEN_int : LEN <= INT_MAX.
Context {TYPE : Type}.
Implicit Types (b : CircularBuffer TYPE) (l : list TYPE).

(** Two appends less than [LEN] apart go to different slots. *)
Lemma slots_apart (k n : Z) : 0 < n - k < LEN -> k mod LEN <> n mod LEN.
Proof.
  intros Hkn Heq.
  assert (Hz : (n - k) mod LEN = 0).
  { rewrite Zminus_mod, Heq, Z.sub_diag. apply Z.mod_0_l. lia. }
  rewrite Z.mod_small in Hz; lia.
Qed.

(** After [N] appends into a fresh buffer, the [k]-th appended value
    (from 0) is in slot [k mod LEN], for the last [min N LEN] of them. *)
Lemma populate_data (uninit : Z -> TYPE) l (k : Z) :
  Z.of_nat (length l) - Z.min (Z.of_nat (length l)) LEN <= k < Z.of_nat (length l) ->
  nth_error l (Z.to_nat k)
  = Some (data (populate LEN l (default_ctor uninit)) (k mod LEN)).
Proof.
  revert k. induction l as [| x l IH] using rev_ind; intros k Hk.
  - simpl in Hk. lia.
  - rewrite populate_app. simpl populate.
    rewrite length_app in Hk. simpl length in Hk.
    rewrite Nat2Z.inj_add in Hk. simpl Z.of_nat in Hk.
    destruct (populate_counter_total LEN LEN_pos LEN_int uninit l) as [Hc _].
    simpl data. unfold store. rewrite Hc.
    destruct (Z.eqb_spec (k mod LEN) (Z.of_nat (length l) mod LEN)) as [Heq | Hne].
    + assert (k = Z.of_nat (length l)) as ->.
      { destruct (Z.eq_dec k (Z.of_nat (length l))) as [| Hd]; [assumption |].
        exfalso. revert Heq. apply slots_apart. lia. }
      rewrite Nat2Z.id, nth_error_app2 by lia.
      now rewrite Nat.sub_diag.
    + assert (k < Z.of_nat (length l)).
      { destruct (Z.eq_dec k (Z.of_nat (length l))) as [-> | Hd]; [| lia].
        now contradiction Hne. }
      rewrite nth_error_app1 by lia.
      apply IH. lia.
Qed.

(** A list is determined by its elements from a position on. *)
Lemma skipn_as_map (f : nat -> TYPE) l (s : nat) :
  (forall j, (s + j < length l)%nat -> nth_error l (s + j) = Some (f j)) ->
  map f (seq 0 (length l - s)) = skipn s l.
Proof.
  intros Hf. apply nth_error_ext. intros n.
  rewrite nth_error_skipn, nth_error_map, nth_error_seq.
  destruct (Nat.ltb_spec n (length l - s)) as [Hlt | Hge]; simpl.
  - symmetry. apply Hf. lia.
  - symmetry. apply nth_error_None. lia.
Qed.

Hypothesis LEN_small : 3 * LEN <= UINT_MODULUS + 1.

(** The iteration order law and the overwrite law, for the capacities for
    which [counter + LEN + LEN] does not wrap around: iteration after the
    appends [l] yields the last [min N LEN] values of [l], oldest first. *)
Lemma iteration_after_appends (uninit : Z -> TYPE) l :
  iterate LEN (populate LEN l (default_ctor uninit))
  = Some (skipn (length l - Z.to_nat LEN) l).
Proof.
  set (b := populate LEN l (default_ctor uninit)).
  assert (Hinv : invariant LEN b).
  { apply populate_invariant; auto using default_ctor_invariant. }
  rewrite (iterate_window LEN LEN_pos LEN_small b Hinv).
  destruct (populate_counter_total LEN LEN_pos LEN_int uninit l) as [Hc Ht].
  fold b in Hc, Ht. rewrite Hc, Ht. f_equal.
  replace (Z.to_nat (Z.min (Z.of_nat (length l)) LEN))
    with (length l - (length l - Z.to_nat LEN))%nat by lia.
  apply skipn_as_map. intros j Hj.
  replace (Z.of_nat (length l) mod LEN - Z.min (Z.of_nat (length l)) LEN + Z.of_nat j)
    with (Z.of_nat (length l) mod LEN
          + (Z.of_nat j - Z.min (Z.of_nat (length l)) LEN)) by lia.
  rewrite Zplus_mod_idemp_l.
  replace (Z.of_nat (length l) + (Z.of_nat j - Z.min (Z.of_nat (length l)) LEN))
    with (Z.of_nat (length l - Z.to_nat LEN + j)) by lia.
  fold b. rewrite <- (Nat2Z.id (length l - Z.to_nat LEN + j)) at 1.
  apply populate_data. lia.
Qed.

End Appends.

(** ** The counted loops *)

Section Loops.

Variable LEN : Z.
Hypothesis LEN_pos : 0 < LEN.
Hypothesis LEN_int : LEN <= INT_MAX.

(** The rule of the loop [for (int i = start; i < LEN; ++i)]: with fuel
    for the [LEN - start] rounds it ends, and a property that every round
    keeps holds at the end. *)
Lemma for_loop_rule {A : Type} (P : Z -> A -> Prop) (body : Z -> A -> A) :
  (forall k a, 0 <= k < LEN -> P k a -> P (k + 1) (body k a)) ->
  forall (fuel : nat) (i : Z) (acc : A),
    0 <= i <= LEN ->
    LEN - i <= Z.of_nat fuel ->
    P i acc ->
    exists r, for_loop LEN fuel i body acc = Some r /\ P LEN r.
Proof.
  intros Hstep fuel. induction fuel as [| fuel IH]; intros i acc Hi Hfuel HP.
  - assert (i = LEN) as -> by lia.
    exists acc. simpl. rewrite to_unsigned_small by wrap_arith.
    now rewrite Z.ltb_irrefl.
  - simpl. rewrite to_unsigned_small by wrap_arith.
    destruct (Z.ltb_spec i LEN) as [Hlt | Hge].
    + unfold int_add. rewrite to_int_small by wrap_arith.
      apply IH; [lia | lia |]. apply Hstep; [lia | assumption].
    + assert (i = LEN) as -> by lia. now exists acc.
Qed.

Context {TYPE : Type}.

(** The fill loop writes every slot of the array. *)
Lemma fill_loop (uninit : Z -> TYPE) (v : TYPE) :
  exists d,
    for_loop LEN (Z.to_nat LEN) 0 (fun i d => store d i v) uninit = Some d
    /\ forall j, 0 <= j < LEN -> d j = v.
Proof.
  apply (for_loop_rule (fun k d => forall j, 0 <= j < k -> d j = v)).
  - intros k a Hk Ha j Hj. unfold store.
    destruct (Z.eqb_spec j k); [reflexivity | apply Ha; lia].
  - lia.
  - lia.
  - intros j Hj. lia.
Qed.

Context {arith : Arithmetic TYPE}.

(** [minimum()] ends with a slot of the array that no slot is less than. *)
Lemma minimum_least (b : CircularBuffer TYPE) :
  exists m,
    minimum LEN b = Some m
    /\ (exists i, 0 <= i < LEN /\ data b i = m)
    /\ (forall i, 0 <= i < LEN -> less (data b i) m = false).
Proof.
  unfold minimum.
  apply (for_loop_rule
           (fun k value =>
              (exists i, 0 <= i < LEN /\ data b i = value)
              /\ (forall i, 0 <= i < k -> less (data b i) value = false))).
  - intros k value Hk [Hin Hle].
    destruct (less (data b k) value) eqn:Hcmp.
    + split; [now exists k |].
      intros i Hi. destruct (Z.eq_dec i k) as [-> | Hne].
      * apply less_irrefl.
      * destruct (less (data b i) (data b k)) eqn:Hik; [| reflexivity].
        rewrite <- (Hle i) by lia. symmetry.
        eapply less_trans; eassumption.
    + split; [assumption |].
      intros i Hi. destruct (Z.eq_dec i k) as [-> | Hne];
        [assumption | apply Hle; lia].
  - lia.
  - lia.
  - split; [exists 0; split; [lia | reflexivity] |].
    intros i Hi. assert (i = 0) as -> by lia. apply less_irrefl.
Qed.

(** [maximum()] ends with a slot of the array that no slot is greater
    than. *)
Lemma maximum_greatest (b : CircularBuffer TYPE) :
  exists m,
    maximum LEN b = Some m
    /\ (exists i, 0 <= i < LEN /\ data b i = m)
    /\ (forall i, 0 <= i < LEN -> greater (data b i) m = false).
Proof.
  unfold maximum, greater.
  apply (for_loop_rule
           (fun k value =>
              (exists i, 0 <= i < LEN /\ data b i = value)
              /\ (forall i, 0 <= i < k -> less value (data b i) = false))).
  - intros k value Hk [Hin Hle].
    destruct (less value (data b k)) eqn:Hcmp.
    + split; [now exists k |].
      intros i Hi. destruct (Z.eq_dec i k) as [-> | Hne].
      * apply less_irrefl.
      * destruct (less (data b k) (data b i)) eqn:Hik; [| reflexivity].
        rewrite <- (Hle i) by lia. symmetry.
        eapply less_trans; eassumption.
    + split; [assumption |].
      intros i Hi. destruct (Z.eq_dec i k) as [-> | Hne];
        [assumption | apply Hle; lia].
  - lia.
  - lia.
  - split; [exists 0; split; [lia | reflexivity] |].
    intros i Hi. assert (i = 0) as -> by lia. apply less_irrefl.
Qed.

(** On an array whose slots all hold [v], both loops end with [v]; no
    property of the comparison is used. *)
Lemma extremum_of_constant (d : Z -> TYPE) (v : TYPE) (cmp : TYPE -> TYPE -> bool) :
  (forall j, 0 <= j < LEN -> d j = v) ->
  for_loop LEN (Z.to_nat LEN) 1
    (fun i value => if cmp (d i) value then d i else value) (d 0) = Some v.
Proof.
  intros Hd.
  destruct (for_loop_rule (fun _ value => value = v)
              (fun i value => if cmp (d i) value then d i else value))
    with (fuel := Z.to_nat LEN) (i := 1) (acc := d 0) as (r & Hr & ->).
  - intros k a Hk ->. rewrite (Hd k Hk). now destruct (cmp v v).
  - lia.
  - lia.
  - apply Hd. lia.
  - exact Hr.
Qed.

End Loops.

(** ** The properties of the operations *)

(** The scenarios of a buffer of capacity 3: brace initialisation with
    1, 2, 3, and four appends into an empty buffer. *)
Example brace_initialisation :
  let b := list_ctor 3 (fun _ => 0) [1; 2; 3] in
  count b = 3 /\ iterate 3 b = Some [1; 2; 3] /\ index b = 0.
Proof. vm_compute. repeat split. Qed.

Example four_appends :
  let b := populate 3 [10; 20; 30; 40] (default_ctor (fun _ => 0)) in
  iterate 3 b = Some [20; 30; 40]
  /\ minimum 3 b = Some 20 /\ maximum 3 b = Some 40
  /\ index b = 1 /\ current b = 20.
Proof. vm_compute. repeat split. Qed.

(** [populate] is the sequence of the appends of its arguments. *)
Lemma populate_fold_left {TYPE : Type} (LEN : Z) (l : list TYPE) (b : CircularBuffer TYPE) :
  populate LEN l b = fold_left (fun b' v => append LEN v b') l b.
Proof. revert b. induction l as [| x l IH]; intros b; simpl; auto. Qed.

(** C1, at a capacity for which [counter + LEN + LEN] wraps around: with
    [LEN = INT_MAX], after the three appends [v1], [v2], [v3] into a fresh
    buffer, [begin()] has offset [-2] and [end()] offset [1]; iteration reads
    the slots 0, 1, 0 and yields [v1; v2; v1], not [v1; v2; v3], while
    [count()] is 3. *)
Theorem iteration_wraps_at_INT_MAX (TYPE : Type) (uninit : Z -> TYPE) (v1 v2 v3 : TYPE) :
  let b := fold_left (fun b' v => append INT_MAX v b') [v1; v2; v3]
                     (default_ctor uninit) in
  count b = 3
  /\ offset (begin INT_MAX b) = -2
  /\ offset (end_ INT_MAX b) = 1
  /\ iterate INT_MAX b = Some [v1; v2; v1].
Proof. vm_compute. repeat split. Qed.

(** C2, with a NaN: on a buffer of capacity 3 whose slots hold NaN, 1, 2,
    [minimum()] and [maximum()] both return the NaN of slot 0, which is
    neither the least nor the greatest of the three values. *)
Lemma minimum_of_NaN_first_is_not_least :
  let b := populate 3 [NaN; Num 1; Num 2] (default_ctor (fun _ => NaN)) in
  minimum 3 b = Some NaN
  /\ maximum 3 b = Some NaN
  /\ ~ is_least 3 (data b) NaN
  /\ ~ is_greatest 3 (data b) NaN.
Proof.
  intros b. split; [reflexivity |]. split; [reflexivity |]. split.
  - intros [_ Hall]. destruct (Hall 1) as [Heq | Hlt]; [lia | |];
      vm_compute in *; discriminate.
  - intros [_ Hall]. destruct (Hall 1) as [Heq | Hgt]; [lia | |];
      vm_compute in *; discriminate.
Qed.

(** C2, amended: [minimum()] and [maximum()] end and return the value of a
    slot of the array that no slot among all the [LEN] ones is less than,
    respectively greater than; [count()] plays no part.  When the
    comparison is total (two values of which neither is less than the other
    are equal) these are the least and the greatest value of all the [LEN]
    slots. *)
Theorem minimum_maximum_over_all_slots
  (TYPE : Type) (arith : Arithmetic TYPE) (LEN : Z) (b : CircularBuffer TYPE) :
  0 < LEN -> LEN <= INT_MAX ->
  exists lo hi,
    minimum LEN b = Some lo
    /\ maximum LEN b = Some hi
    /\ (exists i, 0 <= i < LEN /\ data b i = lo)
    /\ (exists i, 0 <= i < LEN /\ data b i = hi)
    /\ (forall i, 0 <= i < LEN -> less (data b i) lo = false)
    /\ (forall i, 0 <= i < LEN -> greater (data b i) hi = false)
    /\ ((forall a c : TYPE, less a c = false -> less c a = false -> a = c) ->
        is_least LEN (data b) lo /\ is_greatest LEN (data b) hi).
Proof.
  intros Hpos Hint.
  destruct (minimum_least LEN Hpos Hint b) as (lo & Hmin & Hlo_in & Hlo).
  destruct (maximum_greatest LEN Hpos Hint b) as (hi & Hmax & Hhi_in & Hhi).
  exists lo, hi.
  split; [assumption |]. split; [assumption |]. split; [assumption |].
  split; [assumption |]. split; [assumption |]. split; [assumption |].
  intros Htotal. split; (split; [assumption |]); intros i Hi.
  - destruct (less lo (data b i)) eqn:Hcmp; [now right | left].
    apply Htotal; [assumption | now apply Hlo].
  - unfold greater. destruct (less (data b i) hi) eqn:Hcmp; [now right | left].
    apply Htotal; [now apply Hhi | assumption].
Qed.

(** A buffer of capacity 3 with two valid elements, 5 and 7, and a third
    slot that holds 0: the minimum is the 0 of the slot beyond [count()].
    The order of the integers is total. *)
Lemma minimum_maximum_over_all_slots_witness :
  let b := populate 3 [5; 7] (default_ctor (fun _ => 0)) in
  count b = 2
  /\ minimum 3 b = Some 0
  /\ (forall a c : Z, less a c = false -> less c a = false -> a = c)
  /\ exists lo hi,
       minimum 3 b = Some lo
       /\ maximum 3 b = Some hi
       /\ (exists i, 0 <= i < 3 /\ data b i = lo)
       /\ (exists i, 0 <= i < 3 /\ data b i = hi)
       /\ (forall i, 0 <= i < 3 -> less (data b i) lo = false)
       /\ (forall i, 0 <= i < 3 -> greater (data b i) hi = false)
       /\ ((forall a c : Z, less a c = false -> less c a = false -> a = c) ->
           is_least 3 (data b) lo /\ is_greatest 3 (data b) hi).
Proof.
  intros b. split; [reflexivity |]. split; [reflexivity |]. split.
  - intros a c Hac Hca. simpl in Hac, Hca. rewrite Z.ltb_ge in Hac, Hca. lia.
  - apply (minimum_maximum_over_all_slots Z Arithmetic_Z 3 b).
    + lia.
    + unfold INT_MAX. lia.
Defined.

(** C3, the concrete scenario: on a buffer of capacity 3 that holds 10, 20,
    30 in its slots 0, 1, 2, [get(-1)] is 10 and [get(2)] is 30. *)
Lemma get_minus_one_differs_from_get_two :
  let b := populate 3 [10; 20; 30] (default_ctor (fun _ => 0)) in
  get 3 b (-1) = 10 /\ get 3 b 2 = 30 /\ get 3 b (-1) <> get 3 b 2.
Proof. vm_compute. repeat split. discriminate. Qed.

(** C3, amended: for every [int] index the slot of [get]/[set] is a slot of
    the array, so no access is out of bounds; the slot is the index
    converted to [unsigned int], modulo [LEN]: [i mod LEN] for [i >= 0] and
    [(i + 2^32) mod LEN] for [i < 0].  A write is read back at the same
    index.  On a buffer of capacity 3, [get(-1)] equals [get(0)]. *)
Theorem indexed_access_in_bounds
  (TYPE : Type) (LEN : Z) (b : CircularBuffer TYPE) (i : Z) (v : TYPE) :
  0 < LEN -> is_int i ->
  0 <= slot LEN i < LEN
  /\ get LEN b i = data b (slot LEN i)
  /\ get LEN (set LEN b i v) i = v
  /\ (0 <= i -> slot LEN i = i mod LEN)
  /\ (i < 0 -> slot LEN i = (i + UINT_MODULUS) mod LEN)
  /\ (forall b3 : CircularBuffer TYPE, get 3 b3 (-1) = get 3 b3 0).
Proof.
  intros Hpos Hi. repeat split.
  - apply Z.mod_pos_bound. assumption.
  - apply Z.mod_pos_bound. assumption.
  - unfold get, set, store. simpl. now rewrite Z.eqb_refl.
  - intros Hge. unfold slot, uint_rem. f_equal. wrap_arith.
  - intros Hlt. unfold slot, uint_rem. f_equal. wrap_arith.
Qed.

Lemma indexed_access_in_bounds_witness :
  let b := populate 3 [10; 20; 30] (default_ctor (fun _ => 0)) in
  0 < 3 /\ is_int (-1)
  /\ 0 <= slot 3 (-1) < 3
  /\ get 3 b (-1) = data b (slot 3 (-1))
  /\ get 3 (set 3 b (-1) 99) (-1) = 99
  /\ (0 <= -1 -> slot 3 (-1) = -1 mod 3)
  /\ (-1 < 0 -> slot 3 (-1) = (-1 + UINT_MODULUS) mod 3)
  /\ (forall b3 : CircularBuffer Z, get 3 b3 (-1) = get 3 b3 0).
Proof.
  intros b. split; [lia |]. split; [unfold is_int, INT_MIN, INT_MAX; lia |].
  apply (indexed_access_in_bounds Z 3 b (-1) 99).
  - lia.
  - unfold is_int, INT_MIN, INT_MAX. lia.
Defined.

(** C4: after any sequence of [N] appends into a fresh buffer, [count()]
    is [min N LEN]. *)
Theorem count_after_appends
  (TYPE : Type) (LEN : Z) (uninit : Z -> TYPE) (l : list TYPE) :
  0 < LEN -> LEN <= INT_MAX ->
  count (fold_left (fun b v => append LEN v b) l (default_ctor uninit))
  = Z.min (Z.of_nat (length l)) LEN.
Proof.
  intros Hpos Hint. rewrite <- populate_fold_left. unfold count.
  apply (populate_counter_total LEN Hpos Hint uninit l).
Qed.

Lemma count_after_appends_witness :
  0 < 3 /\ 3 <= INT_MAX
  /\ count (fold_left (fun b v => append 3 v b) [10; 20; 30; 40]
                      (default_ctor (fun _ => 0)))
     = Z.min (Z.of_nat (length [10; 20; 30; 40])) 3.
Proof.
  split; [lia |]. split; [unfold INT_MAX; lia |].
  apply (count_after_appends Z 3 (fun _ => 0) [10; 20; 30; 40]).
  - lia.
  - unfold INT_MAX. lia.
Defined.

(** C5, moving the cursor between the appends and the iteration: on a
    buffer of capacity 3 filled by the appends 1, 2, 3, iteration yields
    [1; 2; 3]; after [next()] it yields [2; 3; 1]. *)
Lemma iteration_changes_with_cursor :
  let b := populate 3 [1; 2; 3] (default_ctor (fun _ => 0)) in
  iterate 3 b = Some [1; 2; 3]
  /\ iterate 3 (next 3 b) = Some [2; 3; 1]
  /\ iterate 3 (next 3 b) <> iterate 3 b.
Proof. vm_compute. repeat split. discriminate. Qed.

(** C5, amended: in every state that satisfies the invariant, for a
    capacity with [3 * LEN <= 2^32 + 1], iteration ends and yields the
    [count()] slots before the cursor, [(counter - total + j) mod LEN] for
    [j = 0 .. total - 1], in that order.  Right after a sequence of appends
    into a fresh buffer these are the last [min N LEN] appended values,
    oldest first.  [next()] moves the slots read one slot forward and
    [prev()] one slot backward. *)
Theorem iteration_reads_slots_before_cursor
  (TYPE : Type) (LEN : Z) (b : CircularBuffer TYPE) :
  0 < LEN -> 3 * LEN <= UINT_MODULUS + 1 -> invariant LEN b ->
  let window (c : Z) :=
    map (fun j => data b ((c - total b + Z.of_nat j) mod LEN))
        (seq 0 (Z.to_nat (total b))) in
  iterate LEN b = Some (window (counter b))
  /\ iterate LEN (next LEN b) = Some (window (counter b + 1))
  /\ iterate LEN (prev LEN b) = Some (window (counter b - 1))
  /\ (forall (uninit : Z -> TYPE) (l : list TYPE),
        iterate LEN (fold_left (fun b' v => append LEN v b') l (default_ctor uninit))
        = Some (skipn (length l - Z.to_nat LEN) l)).
Proof.
  intros Hpos Hsmall Hinv window.
  assert (Hint : LEN <= INT_MAX) by (unfold UINT_MODULUS, INT_MAX in *; lia).
  split; [| split; [| split]].
  - apply iterate_window; assumption.
  - rewrite iterate_window
      by (try apply next_invariant; assumption).
    rewrite (next_counter LEN Hpos Hint b Hinv). simpl total. simpl data.
    unfold window. f_equal. apply map_ext. intros j. f_equal.
    rewrite <- Zplus_mod_idemp_l, <- Zminus_mod_idemp_l, Z.mod_mod by lia.
    rewrite Zminus_mod_idemp_l, Zplus_mod_idemp_l. reflexivity.
  - rewrite iterate_window
      by (try apply prev_invariant; assumption).
    rewrite (prev_counter LEN Hpos Hint b Hinv). simpl total. simpl data.
    unfold window. f_equal. apply map_ext. intros j. f_equal.
    rewrite <- Zplus_mod_idemp_l, <- Zminus_mod_idemp_l, Z.mod_mod by lia.
    rewrite Zminus_mod_idemp_l, Zplus_mod_idemp_l.
    replace (counter b + LEN - 1 - total b + Z.of_nat j)
      with (counter b - 1 - total b + Z.of_nat j + 1 * LEN) by lia.
    apply Z.mod_add. lia.
  - intros uninit l. rewrite <- populate_fold_left.
    apply iteration_after_appends; assumption.
Qed.

Lemma iteration_reads_slots_before_cursor_witness :
  let b := populate 3 [10; 20; 30; 40] (default_ctor (fun _ => 0)) in
  let window (c : Z) :=
    map (fun j => data b ((c - total b + Z.of_nat j) mod 3))
        (seq 0 (Z.to_nat (total b))) in
  0 < 3 /\ 3 * 3 <= UINT_MODULUS + 1 /\ invariant 3 b
  /\ iterate 3 b = Some [20; 30; 40]
  /\ iterate 3 b = Some (window (counter b))
  /\ iterate 3 (next 3 b) = Some (window (counter b + 1))
  /\ iterate 3 (prev 3 b) = Some (window (counter b - 1))
  /\ (forall (uninit : Z -> Z) (l : list Z),
        iterate 3 (fold_left (fun b' v => append 3 v b') l (default_ctor uninit))
        = Some (skipn (length l - Z.to_nat 3) l)).
Proof.
  intros b window.
  assert (Hpos : 0 < 3) by lia.
  assert (Hsmall : 3 * 3 <= UINT_MODULUS + 1) by (unfold UINT_MODULUS; lia).
  assert (Hinv : invariant 3 b) by (vm_compute; repeat split; discriminate).
  split; [exact Hpos |]. split; [exact Hsmall |]. split; [exact Hinv |].
  split; [reflexivity |].
  exact (iteration_reads_slots_before_cursor Z 3 b Hpos Hsmall Hinv).
Defined.

(** C6, at a capacity above [INT_MAX]: with [LEN = 3000000000] a fresh
    buffer satisfies the invariant, and one [prev()] computes
    [(0 + LEN - 1) % LEN = 2999999999], which the [int] [counter] holds as
    [-1294967297]: [index()] is negative and the invariant is lost. *)
Theorem prev_leaves_range_above_INT_MAX (TYPE : Type) (uninit : Z -> TYPE) :
  let LEN := 3000000000 in
  let b := default_ctor uninit in
  invariant LEN b
  /\ index (prev LEN b) = -1294967297
  /\ ~ invariant LEN (prev LEN b)
  /\ ~ invariant LEN (run LEN OpPrev b).
Proof.
  intros LEN b. split; [vm_compute; repeat split; discriminate |].
  split; [reflexivity |].
  split; intros [[Hc _] _]; vm_compute in Hc; now apply Hc.
Qed.

(** For a capacity up to [INT_MAX]: the constructors establish the
    invariant [0 <= counter < LEN] and [0 <= total <= LEN]; every operation
    keeps it, never lowers [count()], and keeps a full buffer full. *)
Theorem operations_keep_invariant (TYPE : Type) (LEN : Z) :
  0 < LEN -> LEN <= INT_MAX ->
  (forall uninit : Z -> TYPE, invariant LEN (default_ctor uninit))
  /\ (forall (uninit : Z -> TYPE) (v : TYPE),
        exists b, fill_ctor LEN uninit v = Some b /\ invariant LEN b)
  /\ (forall (uninit : Z -> TYPE) (args : list TYPE),
        invariant LEN (list_ctor LEN uninit args))
  /\ (forall (op : operation TYPE) (b : CircularBuffer TYPE),
        invariant LEN b ->
        invariant LEN (run LEN op b)
        /\ count b <= count (run LEN op b)
        /\ (count b = LEN -> count (run LEN op b) = LEN)).
Proof.
  intros Hpos Hint. split; [| split; [| split]].
  - intros uninit. now apply default_ctor_invariant.
  - intros uninit v. unfold fill_ctor.
    destruct (fill_loop LEN Hpos Hint uninit v) as (d & -> & _).
    eexists. split; [reflexivity |]. unfold invariant. simpl. lia.
  - intros uninit args. unfold list_ctor.
    apply populate_invariant; auto using default_ctor_invariant.
  - intros op b Hinv. unfold count.
    destruct op; simpl run;
      try (split; [exact Hinv | split; [simpl; lia | simpl; auto]]).
    + split; [now apply append_invariant |].
      rewrite append_total by assumption. destruct Hinv as [_ Ht]. lia.
    + now apply populate_invariant.
    + split; [now apply prev_invariant | simpl; lia].
    + split; [now apply next_invariant | simpl; lia].
Qed.

Lemma operations_keep_invariant_witness :
  0 < 3 /\ 3 <= INT_MAX
  /\ (forall uninit : Z -> Z, invariant 3 (default_ctor uninit))
  /\ (forall (uninit : Z -> Z) (v : Z),
        exists b, fill_ctor 3 uninit v = Some b /\ invariant 3 b)
  /\ (forall (uninit : Z -> Z) (args : list Z),
        invariant 3 (list_ctor 3 uninit args))
  /\ (forall (op : operation Z) (b : CircularBuffer Z),
        invariant 3 b ->
        invariant 3 (run 3 op b)
        /\ count b <= count (run 3 op b)
        /\ (count b = 3 -> count (run 3 op b) = 3)).
Proof.
  split; [lia |]. split; [unfold INT_MAX; lia |].
  apply (operations_keep_invariant Z 3).
  - lia.
  - unfold INT_MAX. lia.
Defined.

(** C7, across zero: on a buffer of capacity 3 that holds 7, 8, 9,
    [get(-1)] is 7 and [get(-1 + 3)] is 9. *)
Lemma get_not_periodic_across_zero :
  let b := populate 3 [7; 8; 9] (default_ctor (fun _ => 0)) in
  get 3 b (-1) = 7 /\ get 3 b (-1 + 3) = 9 /\ get 3 b (-1) <> get 3 b (-1 + 3).
Proof. vm_compute. repeat split. discriminate. Qed.

(** C7, amended: [get(i) == get(i + LEN)] for all [int] indices [i] and
    [i + LEN] of the same sign, and for all [int] indices when [LEN]
    divides 2^32. *)
Theorem get_periodic_same_sign
  (TYPE : Type) (LEN : Z) (b : CircularBuffer TYPE) (i : Z) :
  0 < LEN -> is_int i -> is_int (i + LEN) ->
  0 <= i \/ i + LEN < 0 \/ UINT_MODULUS mod LEN = 0 ->
  get LEN b i = get LEN b (i + LEN).
Proof.
  intros Hpos Hi HiL Hcase. unfold get. f_equal. unfold slot, uint_rem.
  destruct Hcase as [Hge | [Hlt | Hdiv]].
  - replace (to_unsigned i) with i by wrap_arith.
    replace (to_unsigned (i + LEN)) with (i + 1 * LEN) by wrap_arith.
    symmetry. apply Z.mod_add. lia.
  - replace (to_unsigned i) with (i + UINT_MODULUS) by wrap_arith.
    replace (to_unsigned (i + LEN)) with (i + UINT_MODULUS + 1 * LEN) by wrap_arith.
    symmetry. apply Z.mod_add. lia.
  - assert (Hdivides : (LEN | UINT_MODULUS)) by (apply Z.mod_divide; lia).
    unfold to_unsigned.
    rewrite !Z.mod_mod_divide by assumption.
    replace (i + LEN) with (i + 1 * LEN) by lia.
    symmetry. apply Z.mod_add. lia.
Qed.

Lemma get_periodic_same_sign_witness :
  let b := populate 3 [7; 8; 9] (default_ctor (fun _ => 0)) in
  0 < 3 /\ is_int 2 /\ is_int (2 + 3)
  /\ (0 <= 2 \/ 2 + 3 < 0 \/ UINT_MODULUS mod 3 = 0)
  /\ get 3 b 2 = 9
  /\ get 3 b 2 = get 3 b (2 + 3).
Proof.
  intros b.
  assert (Hpos : 0 < 3) by lia.
  assert (Hi : is_int 2) by (unfold is_int, INT_MIN, INT_MAX; lia).
  assert (HiL : is_int (2 + 3)) by (unfold is_int, INT_MIN, INT_MAX; lia).
  assert (Hcase : 0 <= 2 \/ 2 + 3 < 0 \/ UINT_MODULUS mod 3 = 0) by (left; lia).
  split; [exact Hpos |]. split; [exact Hi |]. split; [exact HiL |].
  split; [exact Hcase |]. split; [reflexivity |].
  exact (get_periodic_same_sign Z 3 b 2 Hpos Hi HiL Hcase).
Defined.

(** Below the capacity and [INT_MAX], [n] calls of [next()] on a fresh
    buffer of capacity 3000000000 move the cursor to [n]. *)
Lemma next_iter_large {TYPE : Type} (uninit : Z -> TYPE) (n : nat) :
  Z.of_nat n <= 2000000000 ->
  Nat.iter n (next 3000000000) (default_ctor uninit) = mkBuffer uninit (Z.of_nat n) 0.
Proof.
  induction n as [| n IH]; intros Hn; [reflexivity |].
  change (Nat.iter (S n) (next 3000000000) (default_ctor uninit))
    with (next 3000000000 (Nat.iter n (next 3000000000) (default_ctor uninit))).
  rewrite IH by lia. unfold next. cbn [data counter total]. f_equal.
  unfold int_add, uint_rem.
  rewrite (to_int_small (Z.of_nat n + 1)) by (unfold is_int, INT_MIN, INT_MAX; lia).
  rewrite to_unsigned_small by (unfold UINT_MODULUS; lia).
  rewrite Z.mod_small by lia.
  rewrite to_int_small by (unfold is_int, INT_MIN, INT_MAX; lia). lia.
Qed.

(** C8, at a capacity above [INT_MAX]: with [LEN = 3000000000], 2000000000
    calls of [next()] on a fresh buffer put the cursor at 2000000000, and
    the invariant holds.  There [prev()] computes
    [2000000000 + LEN - 1 = 4999999999], which wraps to 705032703, so
    [prev()] then [next()] gives 705032704; [next()] then [prev()] gives
    705032704 as well.  Neither restores [index()]. *)
Theorem next_prev_do_not_cancel_above_INT_MAX (TYPE : Type) (uninit : Z -> TYPE) :
  let LEN := 3000000000 in
  let b := mkBuffer uninit 2000000000 0 in
  Nat.iter (Z.to_nat 2000000000) (next LEN) (default_ctor uninit) = b
  /\ invariant LEN b
  /\ index b = 2000000000
  /\ index (prev LEN b) = 705032703
  /\ index (next LEN (prev LEN b)) = 705032704
  /\ index (prev LEN (next LEN b)) = 705032704.
Proof.
  intros LEN b. split.
  - subst LEN b. rewrite next_iter_large by (rewrite Z2Nat.id; lia).
    rewrite Z2Nat.id by lia. reflexivity.
  - split; [vm_compute; repeat split; discriminate |].
    repeat split.
Qed.

(** For a capacity up to [INT_MAX]: in a state that satisfies the
    invariant, [next()] then [prev()], and [prev()] then [next()], give back
    the same state: the same [index()], the same array and the same
    [count()]. *)
Theorem next_prev_cancel (TYPE : Type) (LEN : Z) (b : CircularBuffer TYPE) :
  0 < LEN -> LEN <= INT_MAX -> invariant LEN b ->
  (index (prev LEN (next LEN b)) = index b
   /\ data (prev LEN (next LEN b)) = data b
   /\ count (prev LEN (next LEN b)) = count b)
  /\ (index (next LEN (prev LEN b)) = index b
      /\ data (next LEN (prev LEN b)) = data b
      /\ count (next LEN (prev LEN b)) = count b).
Proof.
  intros Hpos Hint Hinv. unfold index, count.
  pose proof (next_invariant LEN Hpos Hint b Hinv) as Hnext.
  pose proof (prev_invariant LEN Hpos Hint b Hinv) as Hprev.
  destruct Hinv as [Hc Ht].
  split; (split; [| split; reflexivity]).
  - rewrite (prev_counter LEN Hpos Hint _ Hnext).
    rewrite (next_counter LEN Hpos Hint b (conj Hc Ht)).
    rewrite <- Zminus_mod_idemp_l, Zplus_mod_idemp_l, Zminus_mod_idemp_l.
    replace (counter b + 1 + LEN - 1) with (counter b + 1 * LEN) by lia.
    rewrite Z.mod_add by lia. now apply Z.mod_small.
  - rewrite (next_counter LEN Hpos Hint _ Hprev).
    rewrite (prev_counter LEN Hpos Hint b (conj Hc Ht)).
    rewrite Zplus_mod_idemp_l.
    replace (counter b + LEN - 1 + 1) with (counter b + 1 * LEN) by lia.
    rewrite Z.mod_add by lia. now apply Z.mod_small.
Qed.

Lemma next_prev_cancel_witness :
  let b := populate 3 [10; 20; 30] (default_ctor (fun _ => 0)) in
  0 < 3 /\ 3 <= INT_MAX /\ invariant 3 b
  /\ index b = 0 /\ index (next 3 b) = 1 /\ index (prev 3 b) = 2
  /\ (index (prev 3 (next 3 b)) = index b
      /\ data (prev 3 (next 3 b)) = data b
      /\ count (prev 3 (next 3 b)) = count b)
  /\ (index (next 3 (prev 3 b)) = index b
      /\ data (next 3 (prev 3 b)) = data b
      /\ count (next 3 (prev 3 b)) = count b).
Proof.
  intros b.
  assert (Hpos : 0 < 3) by lia.
  assert (Hint : 3 <= INT_MAX) by (unfold INT_MAX; lia).
  assert (Hinv : invariant 3 b) by (vm_compute; repeat split; discriminate).
  split; [exact Hpos |]. split; [exact Hint |]. split; [exact Hinv |].
  split; [reflexivity |]. split; [reflexivity |]. split; [reflexivity |].
  exact (next_prev_cancel Z 3 b Hpos Hint Hinv).
Defined.

(** C9: a write [buffer[i] = v] puts [v] into the slot of [i] and changes
    nothing else: [index()] and [count()] are the same and every other slot
    keeps its value. *)
Theorem set_changes_one_slot
  (TYPE : Type) (LEN : Z) (b : CircularBuffer TYPE) (i : Z) (v : TYPE) :
  index (set LEN b i v) = index b
  /\ count (set LEN b i v) = count b
  /\ data (set LEN b i v) (slot LEN i) = v
  /\ (forall k, k <> slot LEN i -> data (set LEN b i v) k = data b k).
Proof.
  repeat split.
  - simpl. unfold store. now rewrite Z.eqb_refl.
  - intros k Hk. simpl. unfold store.
    destruct (Z.eqb_spec k (slot LEN i)); [contradiction | reflexivity].
Qed.

(** C10: the fill constructor ends with a buffer whose [count()] is 0,
    whose [LEN] slots all hold the fill value [v], and whose [minimum()] and
    [maximum()] are both [v]. *)
Theorem fill_ctor_minimum_maximum
  (TYPE : Type) (arith : Arithmetic TYPE) (LEN : Z) (uninit : Z -> TYPE) (v : TYPE) :
  0 < LEN -> LEN <= INT_MAX ->
  exists b,
    fill_ctor LEN uninit v = Some b
    /\ count b = 0
    /\ (forall j, 0 <= j < LEN -> data b j = v)
    /\ minimum LEN b = Some v
    /\ maximum LEN b = Some v.
Proof.
  intros Hpos Hint. unfold fill_ctor.
  destruct (fill_loop LEN Hpos Hint uninit v) as (d & -> & Hd).
  eexists. split; [reflexivity |]. split; [reflexivity |].
  split; [exact Hd |]. split.
  - apply (extremum_of_constant LEN Hpos Hint d v (fun a c => less a c) Hd).
  - apply (extremum_of_constant LEN Hpos Hint d v (fun a c => greater a c) Hd).
Qed.

Lemma fill_ctor_minimum_maximum_witness :
  0 < 3 /\ 3 <= INT_MAX
  /\ exists b,
       fill_ctor 3 (fun _ => 0) 9 = Some b
       /\ count b = 0
       /\ (forall j, 0 <= j < 3 -> data b j = 9)
       /\ minimum 3 b = Some 9
       /\ maximum 3 b = Some 9.
Proof.
  split; [lia |]. split; [unfold INT_MAX; lia |].
  apply (fill_ctor_minimum_maximum Z Arithmetic_Z 3 (fun _ => 0) 9).
  - lia.
  - unfold INT_MAX. lia.
Defined.

(** ** Further properties of the operations *)

Section Further.

Variable LEN : Z.
Hypothesis LEN_pos : 0 < LEN.
Hypothesis LEN_int : LEN <= INT_MAX.
Context {TYPE : Type}.
Implicit Types (b : CircularBuffer TYPE) (v : TYPE) (l : list TYPE).

(** Two integers that differ by a multiple of [LEN] have the same slot. *)
Lemma mod_congr (x y q : Z) : x = y + q * LEN -> x mod LEN = y mod LEN.
Proof. intros ->. apply Z.mod_add. lia. Qed.

(** The slot of an index that is a slot. *)
Lemma slot_of_slot (c : Z) : 0 <= c < LEN -> slot LEN c = c.
Proof.
  intros Hc. unfold slot, uint_rem.
  rewrite to_unsigned_small by wrap_arith. now apply Z.mod_small.
Qed.

(** The cursor and the count after the appends [l], from any state. *)
Lemma populate_from_state l :
  forall b,
    invariant LEN b ->
    counter (populate LEN l b) = (counter b + Z.of_nat (length l)) mod LEN
    /\ total (populate LEN l b) = Z.min (total b + Z.of_nat (length l)) LEN.
Proof.
  induction l as [| x l IH]; intros b Hinv.
  - simpl. rewrite Z.add_0_r. destruct Hinv as [Hc Ht].
    rewrite Z.mod_small by assumption. lia.
  - simpl populate.
    destruct (IH (append LEN x b)) as [Hc Ht];
      [apply append_invariant; assumption |].
    rewrite Hc, Ht.
    rewrite append_counter, append_total by assumption.
    simpl length. rewrite Nat2Z.inj_succ, Zplus_mod_idemp_l.
    destruct Hinv as [_ Hb]. split; [f_equal; lia | lia].
Qed.

(** The cursor after [n] calls of [next()] and of [prev()]. *)
Lemma next_iter (n : nat) b :
  invariant LEN b ->
  invariant LEN (Nat.iter n (next LEN) b)
  /\ counter (Nat.iter n (next LEN) b) = (counter b + Z.of_nat n) mod LEN
  /\ total (Nat.iter n (next LEN) b) = total b
  /\ data (Nat.iter n (next LEN) b) = data b.
Proof.
  intros Hinv. induction n as [| n IH].
  - simpl. rewrite Z.add_0_r. destruct Hinv as [Hc Ht].
    rewrite Z.mod_small by assumption. repeat split; (reflexivity || lia).
  - destruct IH as (Hi & Hc & Ht & Hd).
    change (Nat.iter (S n) (next LEN) b) with (next LEN (Nat.iter n (next LEN) b)).
    split; [now apply next_invariant |].
    rewrite next_counter, Hc by assumption.
    rewrite Zplus_mod_idemp_l, Nat2Z.inj_succ.
    split; [f_equal; lia |]. split; assumption.
Qed.

Lemma prev_iter (n : nat) b :
  invariant LEN b ->
  invariant LEN (Nat.iter n (prev LEN) b)
  /\ counter (Nat.iter n (prev LEN) b) = (counter b - Z.of_nat n) mod LEN
  /\ total (Nat.iter n (prev LEN) b) = total b
  /\ data (Nat.iter n (prev LEN) b) = data b.
Proof.
  intros Hinv. induction n as [| n IH].
  - simpl. rewrite Z.sub_0_r. destruct Hinv as [Hc Ht].
    rewrite Z.mod_small by assumption. repeat split; (reflexivity || lia).
  - destruct IH as (Hi & Hc & Ht & Hd).
    change (Nat.iter (S n) (prev LEN) b) with (prev LEN (Nat.iter n (prev LEN) b)).
    split; [now apply prev_invariant |].
    rewrite prev_counter, Hc by assumption.
    rewrite <- Zminus_mod_idemp_l, Zplus_mod_idemp_l, Zminus_mod_idemp_l.
    rewrite Nat2Z.inj_succ.
    split; [apply mod_congr with (q := 1); lia |]. split; assumption.
Qed.

(** Every value that iteration yields is the value of a slot of the array,
    and there are [total] of them. *)
Lemma iterate_in_bounds b :
  invariant LEN b ->
  exists xs,
    iterate LEN b = Some xs
    /\ Z.of_nat (length xs) = total b
    /\ (forall x, In x xs -> exists i, 0 <= i < LEN /\ data b i = x).
Proof.
  intros [Hc Ht]. rewrite iterate_slots. eexists. split; [reflexivity |].
  split.
  - rewrite length_map, length_seq.
    rewrite to_unsigned_small by wrap_arith. lia.
  - intros x Hx. apply in_map_iff in Hx. destruct Hx as (j & <- & _).
    eexists. split; [| reflexivity]. apply Z.mod_pos_bound. assumption.
Qed.

End Further.

(** Every reachable state satisfies the invariant. *)
Lemma reachable_invariant {TYPE : Type} (LEN : Z) (b : CircularBuffer TYPE) :
  0 < LEN -> LEN <= INT_MAX -> reachable LEN b -> invariant LEN b.
Proof.
  intros Hpos Hint Hb. induction Hb as [uninit | uninit v b Hfill | uninit args | op b Hb IH].
  - now apply default_ctor_invariant.
  - unfold fill_ctor in Hfill.
    destruct (fill_loop LEN Hpos Hint uninit v) as (d & Hd & _).
    rewrite Hd in Hfill. injection Hfill as <-. unfold invariant. simpl. lia.
  - unfold list_ctor. apply populate_invariant; auto using default_ctor_invariant.
  - destruct op; simpl run; try exact IH.
    + now apply append_invariant.
    + now apply populate_invariant.
    + now apply prev_invariant.
    + now apply next_invariant.
Qed.

(** X1: in a state that satisfies the invariant, [append(v)] moves the
    cursor to [(index() + 1) mod LEN], makes [count()] the smaller of
    [count() + 1] and [LEN], writes [v] into the slot of the old cursor and
    leaves every other slot as it was. *)
Theorem append_moves_cursor_and_writes
  (TYPE : Type) (LEN : Z) (b : CircularBuffer TYPE) (v : TYPE) :
  0 < LEN -> LEN <= INT_MAX -> invariant LEN b ->
  index (append LEN v b) = (index b + 1) mod LEN
  /\ count (append LEN v b) = Z.min (count b + 1) LEN
  /\ data (append LEN v b) (index b) = v
  /\ (forall k, k <> index b -> data (append LEN v b) k = data b k).
Proof.
  intros Hpos Hint Hinv. unfold index, count.
  rewrite append_counter, append_total by assumption.
  split; [reflexivity |]. split; [reflexivity |]. simpl. unfold store. split.
  - now rewrite Z.eqb_refl.
  - intros k Hk. destruct (Z.eqb_spec k (counter b)); [contradiction | reflexivity].
Qed.

Lemma append_moves_cursor_and_writes_witness :
  let b := populate 3 [10; 20; 30] (default_ctor (fun _ => 0)) in
  0 < 3 /\ 3 <= INT_MAX /\ invariant 3 b
  /\ index (append 3 40 b) = (index b + 1) mod 3
  /\ count (append 3 40 b) = Z.min (count b + 1) 3
  /\ data (append 3 40 b) (index b) = 40
  /\ (forall k, k <> index b -> data (append 3 40 b) k = data b k).
Proof.
  intros b.
  assert (Hpos : 0 < 3) by lia.
  assert (Hint : 3 <= INT_MAX) by (unfold INT_MAX; lia).
  assert (Hinv : invariant 3 b) by (vm_compute; repeat split; discriminate).
  split; [exact Hpos |]. split; [exact Hint |]. split; [exact Hinv |].
  exact (append_moves_cursor_and_writes Z 3 b 40 Hpos Hint Hinv).
Defined.

(** X2: in a state that satisfies the invariant, [current()] is
    [buffer[index()]]: it reads what [get(index())] reads, and a write
    through it is the write [buffer[index()] = v]. *)
Theorem current_is_get_at_index
  (TYPE : Type) (LEN : Z) (b : CircularBuffer TYPE) (v : TYPE) :
  0 < LEN -> LEN <= INT_MAX -> invariant LEN b ->
  current b = get LEN b (index b)
  /\ set_current b v = set LEN b (index b) v.
Proof.
  intros Hpos Hint [Hc _]. unfold current, get, set_current, set, index.
  rewrite slot_of_slot by assumption. split; reflexivity.
Qed.

Lemma current_is_get_at_index_witness :
  let b := populate 3 [10; 20; 30; 40] (default_ctor (fun _ => 0)) in
  0 < 3 /\ 3 <= INT_MAX /\ invariant 3 b
  /\ current b = 20
  /\ current b = get 3 b (index b)
  /\ set_current b 99 = set 3 b (index b) 99.
Proof.
  intros b.
  assert (Hpos : 0 < 3) by lia.
  assert (Hint : 3 <= INT_MAX) by (unfold INT_MAX; lia).
  assert (Hinv : invariant 3 b) by (vm_compute; repeat split; discriminate).
  split; [exact Hpos |]. split; [exact Hint |]. split; [exact Hinv |].
  split; [reflexivity |].
  exact (current_is_get_at_index Z 3 b 99 Hpos Hint Hinv).
Defined.

(** X3: in a state that satisfies the invariant, for every capacity up to
    [INT_MAX], iteration ends, yields exactly [count()] values, and each of
    them is the value of a slot [0 .. LEN-1] of the array: the iterator
    never reads outside the array. *)
Theorem iteration_yields_count_slot_values
  (TYPE : Type) (LEN : Z) (b : CircularBuffer TYPE) :
  0 < LEN -> LEN <= INT_MAX -> invariant LEN b ->
  exists xs,
    iterate LEN b = Some xs
    /\ Z.of_nat (length xs) = count b
    /\ (forall x, In x xs -> exists i, 0 <= i < LEN /\ data b i = x).
Proof.
  intros Hpos Hint Hinv. now apply iterate_in_bounds.
Qed.

Lemma iteration_yields_count_slot_values_witness :
  let b := fold_left (fun b' v => append INT_MAX v b') [1; 2; 3]
                     (default_ctor (fun _ => 0)) in
  0 < INT_MAX /\ INT_MAX <= INT_MAX /\ invariant INT_MAX b
  /\ exists xs,
       iterate INT_MAX b = Some xs
       /\ Z.of_nat (length xs) = count b
       /\ (forall x, In x xs -> exists i, 0 <= i < INT_MAX /\ data b i = x).
Proof.
  intros b.
  assert (Hpos : 0 < INT_MAX) by (unfold INT_MAX; lia).
  assert (Hint : INT_MAX <= INT_MAX) by lia.
  assert (Hinv : invariant INT_MAX b) by (vm_compute; repeat split; discriminate).
  split; [exact Hpos |]. split; [exact Hint |]. split; [exact Hinv |].
  exact (iteration_yields_count_slot_values Z INT_MAX b Hpos Hint Hinv).
Defined.

(** X4: for a capacity up to [INT_MAX], the value just appended is the one
    before the cursor: after [append(v)], [prev()] then [current()] reads
    [v], and so does [get(index() - 1)] when [index()] is not 0. *)
Theorem last_appended_is_before_cursor
  (TYPE : Type) (LEN : Z) (b : CircularBuffer TYPE) (v : TYPE) :
  0 < LEN -> LEN <= INT_MAX -> invariant LEN b ->
  current (prev LEN (append LEN v b)) = v
  /\ (0 < index (append LEN v b) ->
      get LEN (append LEN v b) (index (append LEN v b) - 1) = v).
Proof.
  intros Hpos Hint Hinv.
  pose proof (append_invariant LEN Hpos Hint v b Hinv) as Hinv'.
  pose proof (append_counter LEN Hpos Hint v b Hinv) as Hc'.
  destruct Hinv as [Hc Ht]. split.
  - unfold current. rewrite prev_counter by assumption. rewrite Hc'.
    rewrite <- Zminus_mod_idemp_l, Zplus_mod_idemp_l, Zminus_mod_idemp_l.
    rewrite (mod_congr LEN) with (y := counter b) (q := 1) by lia.
    rewrite Z.mod_small by assumption.
    simpl. unfold store. now rewrite Z.eqb_refl.
  - unfold index, get. intros Hnz. destruct Hinv' as [Hc2 _].
    rewrite slot_of_slot by lia.
    assert (Hprev : counter (append LEN v b) - 1 = counter b).
    { rewrite Hc' in *.
      destruct (Z.eq_dec (counter b + 1) LEN) as [Heq | Hne].
      - rewrite Heq, Z.mod_same in Hnz by lia. lia.
      - rewrite Z.mod_small by lia. lia. }
    rewrite Hprev. simpl. unfold store. now rewrite Z.eqb_refl.
Qed.

Lemma last_appended_is_before_cursor_witness :
  let b := populate 3 [10; 20] (default_ctor (fun _ => 0)) in
  0 < 3 /\ 3 <= INT_MAX /\ invariant 3 b
  /\ index (append 3 30 b) = 0
  /\ current (prev 3 (append 3 30 b)) = 30
  /\ (0 < index (append 3 30 b) ->
      get 3 (append 3 30 b) (index (append 3 30 b) - 1) = 30).
Proof.
  intros b.
  assert (Hpos : 0 < 3) by lia.
  assert (Hint : 3 <= INT_MAX) by (unfold INT_MAX; lia).
  assert (Hinv : invariant 3 b) by (vm_compute; repeat split; discriminate).
  split; [exact Hpos |]. split; [exact Hint |]. split; [exact Hinv |].
  split; [reflexivity |].
  exact (last_appended_is_before_cursor Z 3 b 30 Hpos Hint Hinv).
Defined.

(** X5: after the brace initialisation or the appends of the values [l]
    into a fresh buffer, [get(k)] is the [k]-th of them (from 0), for every
    [k] among the last [min N LEN] ones that is an [int]; the earlier ones
    are overwritten. *)
Theorem get_reads_kth_appended
  (TYPE : Type) (LEN : Z) (uninit : Z -> TYPE) (l : list TYPE) (k : Z) :
  0 < LEN -> LEN <= INT_MAX ->
  Z.of_nat (length l) - Z.min (Z.of_nat (length l)) LEN <= k < Z.of_nat (length l) ->
  k <= INT_MAX ->
  nth_error l (Z.to_nat k) = Some (get LEN (list_ctor LEN uninit l) k).
Proof.
  intros Hpos Hint Hk Hkint. unfold get, list_ctor, slot, uint_rem.
  rewrite to_unsigned_small by wrap_arith.
  now apply populate_data.
Qed.

Lemma get_reads_kth_appended_witness :
  0 < 3 /\ 3 <= INT_MAX
  /\ Z.of_nat (length [10; 20; 30; 40]) - Z.min (Z.of_nat (length [10; 20; 30; 40])) 3
     <= 3 < Z.of_nat (length [10; 20; 30; 40])
  /\ 3 <= INT_MAX
  /\ get 3 (list_ctor 3 (fun _ => 0) [10; 20; 30; 40]) 3 = 40
  /\ nth_error [10; 20; 30; 40] (Z.to_nat 3)
     = Some (get 3 (list_ctor 3 (fun _ => 0) [10; 20; 30; 40]) 3).
Proof.
  assert (Hpos : 0 < 3) by lia.
  assert (Hint : 3 <= INT_MAX) by (unfold INT_MAX; lia).
  assert (Hk : Z.of_nat (length [10; 20; 30; 40])
               - Z.min (Z.of_nat (length [10; 20; 30; 40])) 3
               <= 3 < Z.of_nat (length [10; 20; 30; 40])) by (simpl; lia).
  split; [exact Hpos |]. split; [exact Hint |]. split; [exact Hk |].
  split; [exact Hint |]. split; [reflexivity |].
  exact (get_reads_kth_appended Z 3 (fun _ => 0) [10; 20; 30; 40] 3 Hpos Hint Hk Hint).
Defined.

(** X6: from any state that satisfies the invariant, the appends of [N]
    values move the cursor to [(index() + N) mod LEN] and make [count()] the
    smaller of [count() + N] and [LEN]; exactly [LEN] appends bring the
    cursor back to where it was and fill the buffer. *)
Theorem appends_from_any_state
  (TYPE : Type) (LEN : Z) (b : CircularBuffer TYPE) (l : list TYPE) :
  0 < LEN -> LEN <= INT_MAX -> invariant LEN b ->
  index (populate LEN l b) = (index b + Z.of_nat (length l)) mod LEN
  /\ count (populate LEN l b) = Z.min (count b + Z.of_nat (length l)) LEN
  /\ (Z.of_nat (length l) = LEN ->
      index (populate LEN l b) = index b /\ count (populate LEN l b) = LEN).
Proof.
  intros Hpos Hint Hinv. unfold index, count.
  destruct (populate_from_state LEN Hpos Hint l b Hinv) as [Hc Ht].
  rewrite Hc, Ht. split; [reflexivity |]. split; [reflexivity |].
  intros ->. destruct Hinv as [Hb Hb']. split; [| lia].
  rewrite (mod_congr LEN) with (y := counter b) (q := 1) by lia.
  now apply Z.mod_small.
Qed.

Lemma appends_from_any_state_witness :
  let b := next 3 (populate 3 [10] (default_ctor (fun _ => 0))) in
  0 < 3 /\ 3 <= INT_MAX /\ invariant 3 b
  /\ index b = 2 /\ count b = 1
  /\ index (populate 3 [7; 8; 9] b) = (index b + Z.of_nat (length [7; 8; 9])) mod 3
  /\ count (populate 3 [7; 8; 9] b) = Z.min (count b + Z.of_nat (length [7; 8; 9])) 3
  /\ (Z.of_nat (length [7; 8; 9]) = 3 ->
      index (populate 3 [7; 8; 9] b) = index b /\ count (populate 3 [7; 8; 9] b) = 3).
Proof.
  intros b.
  assert (Hpos : 0 < 3) by lia.
  assert (Hint : 3 <= INT_MAX) by (unfold INT_MAX; lia).
  assert (Hinv : invariant 3 b) by (vm_compute; repeat split; discriminate).
  split; [exact Hpos |]. split; [exact Hint |]. split; [exact Hinv |].
  split; [reflexivity |]. split; [reflexivity |].
  exact (appends_from_any_state Z 3 b [7; 8; 9] Hpos Hint Hinv).
Defined.

(** X7: for a capacity up to [INT_MAX], [n] calls of [next()] move the
    cursor to [(index() + n) mod LEN] and [n] calls of [prev()] to
    [(index() - n) mod LEN]; [LEN] calls of either bring it back.  None of
    them changes the array or [count()]. *)
Theorem cursor_after_n_moves
  (TYPE : Type) (LEN : Z) (b : CircularBuffer TYPE) (n : nat) :
  0 < LEN -> LEN <= INT_MAX -> invariant LEN b ->
  index (Nat.iter n (next LEN) b) = (index b + Z.of_nat n) mod LEN
  /\ index (Nat.iter n (prev LEN) b) = (index b - Z.of_nat n) mod LEN
  /\ index (Nat.iter (Z.to_nat LEN) (next LEN) b) = index b
  /\ index (Nat.iter (Z.to_nat LEN) (prev LEN) b) = index b
  /\ data (Nat.iter n (next LEN) b) = data b
  /\ data (Nat.iter n (prev LEN) b) = data b
  /\ count (Nat.iter n (next LEN) b) = count b
  /\ count (Nat.iter n (prev LEN) b) = count b.
Proof.
  intros Hpos Hint Hinv. unfold index, count.
  destruct (next_iter LEN Hpos Hint n b Hinv) as (_ & Hnc & Hnt & Hnd).
  destruct (prev_iter LEN Hpos Hint n b Hinv) as (_ & Hpc & Hpt & Hpd).
  destruct (next_iter LEN Hpos Hint (Z.to_nat LEN) b Hinv) as (_ & Hnl & _).
  destruct (prev_iter LEN Hpos Hint (Z.to_nat LEN) b Hinv) as (_ & Hpl & _).
  rewrite Z2Nat.id in Hnl, Hpl by lia.
  destruct Hinv as [Hc _].
  repeat split; try assumption.
  - rewrite Hnl. rewrite (mod_congr LEN) with (y := counter b) (q := 1) by lia.
    now apply Z.mod_small.
  - rewrite Hpl. rewrite (mod_congr LEN) with (y := counter b) (q := -1) by lia.
    now apply Z.mod_small.
Qed.

Lemma cursor_after_n_moves_witness :
  let b := populate 3 [10; 20; 30; 40] (default_ctor (fun _ => 0)) in
  0 < 3 /\ 3 <= INT_MAX /\ invariant 3 b
  /\ index b = 1
  /\ index (Nat.iter 5 (prev 3) b) = 2
  /\ index (Nat.iter 5 (next 3) b) = (index b + Z.of_nat 5) mod 3
  /\ index (Nat.iter 5 (prev 3) b) = (index b - Z.of_nat 5) mod 3
  /\ index (Nat.iter (Z.to_nat 3) (next 3) b) = index b
  /\ index (Nat.iter (Z.to_nat 3) (prev 3) b) = index b
  /\ data (Nat.iter 5 (next 3) b) = data b
  /\ data (Nat.iter 5 (prev 3) b) = data b
  /\ count (Nat.iter 5 (next 3) b) = count b
  /\ count (Nat.iter 5 (prev 3) b) = count b.
Proof.
  intros b.
  assert (Hpos : 0 < 3) by lia.
  assert (Hint : 3 <= INT_MAX) by (unfold INT_MAX; lia).
  assert (Hinv : invariant 3 b) by (vm_compute; repeat split; discriminate).
  split; [exact Hpos |]. split; [exact Hint |]. split; [exact Hinv |].
  split; [reflexivity |]. split; [reflexivity |].
  exact (cursor_after_n_moves Z 3 b 5 Hpos Hint Hinv).
Defined.

(** X8: [minimum()] and [maximum()] bound the values of an iteration: no
    value that iteration yields is less than [minimum()] or greater than
    [maximum()], and [maximum()] is not less than [minimum()]. *)
Theorem minimum_maximum_bound_iteration
  (TYPE : Type) (arith : Arithmetic TYPE) (LEN : Z) (b : CircularBuffer TYPE) :
  0 < LEN -> LEN <= INT_MAX -> invariant LEN b ->
  exists lo hi xs,
    minimum LEN b = Some lo
    /\ maximum LEN b = Some hi
    /\ iterate LEN b = Some xs
    /\ (forall x, In x xs -> less x lo = false /\ greater x hi = false)
    /\ less hi lo = false.
Proof.
  intros Hpos Hint Hinv.
  destruct (minimum_least LEN Hpos Hint b) as (lo & Hmin & _ & Hlo).
  destruct (maximum_greatest LEN Hpos Hint b) as (hi & Hmax & (i & Hi & Hhi_in) & Hhi).
  destruct (iterate_in_bounds LEN Hpos Hint b Hinv) as (xs & Hxs & _ & Hslots).
  exists lo, hi, xs. repeat split; try assumption.
  - destruct (Hslots x H) as (j & Hj & <-). now apply Hlo.
  - destruct (Hslots x H) as (j & Hj & <-). now apply Hhi.
  - rewrite <- Hhi_in. now apply Hlo.
Qed.

Lemma minimum_maximum_bound_iteration_witness :
  let b := populate 3 [5; 7] (default_ctor (fun _ => 0)) in
  0 < 3 /\ 3 <= INT_MAX /\ invariant 3 b
  /\ minimum 3 b = Some 0 /\ iterate 3 b = Some [5; 7]
  /\ exists lo hi xs,
       minimum 3 b = Some lo
       /\ maximum 3 b = Some hi
       /\ iterate 3 b = Some xs
       /\ (forall x, In x xs -> less x lo = false /\ greater x hi = false)
       /\ less hi lo = false.
Proof.
  intros b.
  assert (Hpos : 0 < 3) by lia.
  assert (Hint : 3 <= INT_MAX) by (unfold INT_MAX; lia).
  assert (Hinv : invariant 3 b) by (vm_compute; repeat split; discriminate).
  split; [exact Hpos |]. split; [exact Hint |]. split; [exact Hinv |].
  split; [reflexivity |]. split; [reflexivity |].
  exact (minimum_maximum_bound_iteration Z Arithmetic_Z 3 b Hpos Hint Hinv).
Defined.

(** In a full buffer every slot is read by an iteration. *)
Lemma full_window_covers {TYPE : Type} (LEN : Z) (b : CircularBuffer TYPE) (i : Z) :
  0 < LEN -> 0 <= i < LEN -> total b = LEN ->
  In (data b i)
     (map (fun j => data b ((counter b - total b + Z.of_nat j) mod LEN))
          (seq 0 (Z.to_nat (total b)))).
Proof.
  intros Hpos Hi Hfull. rewrite Hfull. apply in_map_iff.
  pose proof (Z.mod_pos_bound (i - counter b) LEN Hpos) as Hj.
  exists (Z.to_nat ((i - counter b) mod LEN)). split.
  - f_equal. rewrite Z2Nat.id by lia.
    replace (counter b - LEN + (i - counter b) mod LEN)
      with ((i - counter b) mod LEN + (counter b - LEN)) by lia.
    rewrite Zplus_mod_idemp_l.
    rewrite (mod_congr LEN) with (y := i) (q := -1) by lia.
    now apply Z.mod_small.
  - apply in_seq. lia.
Qed.

(** X9: once the buffer is full (and [3 * LEN <= 2^32 + 1]), [minimum()]
    and [maximum()] are values of the iteration, and no value of the
    iteration is less than [minimum()] or greater than [maximum()].  When
    the comparison is total they are the least and the greatest of the
    values that iteration yields: equal to or less than (greater than) each
    of them. *)
Theorem full_buffer_extrema_are_iterated
  (TYPE : Type) (arith : Arithmetic TYPE) (LEN : Z) (b : CircularBuffer TYPE) :
  0 < LEN -> 3 * LEN <= UINT_MODULUS + 1 -> invariant LEN b -> count b = LEN ->
  exists lo hi xs,
    minimum LEN b = Some lo
    /\ maximum LEN b = Some hi
    /\ iterate LEN b = Some xs
    /\ In lo xs /\ In hi xs
    /\ (forall x, In x xs -> less x lo = false /\ greater x hi = false)
    /\ ((forall a c : TYPE, less a c = false -> less c a = false -> a = c) ->
        forall x, In x xs ->
                  (lo = x \/ less lo x = true) /\ (hi = x \/ greater hi x = true)).
Proof.
  intros Hpos Hsmall Hinv Hfull. unfold count in Hfull.
  assert (Hint : LEN <= INT_MAX) by (unfold UINT_MODULUS, INT_MAX in *; lia).
  destruct (minimum_least LEN Hpos Hint b) as (lo & Hmin & (i & Hi & Hlo_in) & Hlo).
  destruct (maximum_greatest LEN Hpos Hint b) as (hi & Hmax & (k & Hk & Hhi_in) & Hhi).
  destruct (iterate_in_bounds LEN Hpos Hint b Hinv) as (xs & Hxs & _ & Hslots).
  exists lo, hi, xs.
  split; [assumption |]. split; [assumption |]. split; [assumption |].
  rewrite (iterate_window LEN Hpos Hsmall b Hinv) in Hxs. injection Hxs as <-.
  split; [rewrite <- Hlo_in; now apply full_window_covers |].
  split; [rewrite <- Hhi_in; now apply full_window_covers |].
  split.
  - intros x Hx. destruct (Hslots x Hx) as (j & Hj & <-).
    split; [now apply Hlo | now apply Hhi].
  - intros Htotal x Hx. destruct (Hslots x Hx) as (j & Hj & <-). split.
    + destruct (less lo (data b j)) eqn:Hcmp; [now right | left].
      apply Htotal; [assumption | now apply Hlo].
    + unfold greater. destruct (less (data b j) hi) eqn:Hcmp; [now right | left].
      apply Htotal; [now apply Hhi | assumption].
Qed.

Lemma full_buffer_extrema_are_iterated_witness :
  let b := populate 3 [10; 20; 30; 40] (default_ctor (fun _ => 0)) in
  0 < 3 /\ 3 * 3 <= UINT_MODULUS + 1 /\ invariant 3 b /\ count b = 3
  /\ minimum 3 b = Some 20 /\ maximum 3 b = Some 40
  /\ (forall a c : Z, less a c = false -> less c a = false -> a = c)
  /\ exists lo hi xs,
       minimum 3 b = Some lo
       /\ maximum 3 b = Some hi
       /\ iterate 3 b = Some xs
       /\ In lo xs /\ In hi xs
       /\ (forall x, In x xs -> less x lo = false /\ greater x hi = false)
       /\ ((forall a c : Z, less a c = false -> less c a = false -> a = c) ->
           forall x, In x xs ->
                     (lo = x \/ less lo x = true) /\ (hi = x \/ greater hi x = true)).
Proof.
  intros b.
  assert (Hpos : 0 < 3) by lia.
  assert (Hsmall : 3 * 3 <= UINT_MODULUS + 1) by (unfold UINT_MODULUS; lia).
  assert (Hinv : invariant 3 b) by (vm_compute; repeat split; discriminate).
  assert (Hfull : count b = 3) by reflexivity.
  split; [exact Hpos |]. split; [exact Hsmall |]. split; [exact Hinv |].
  split; [exact Hfull |]. split; [reflexivity |]. split; [reflexivity |].
  split.
  - intros a c Hac Hca. simpl in Hac, Hca. rewrite Z.ltb_ge in Hac, Hca. lia.
  - exact (full_buffer_extrema_are_iterated Z Arithmetic_Z 3 b Hpos Hsmall Hinv Hfull).
Defined.

(** X11: in a state that satisfies the invariant, [begin()] equals [end()]
    exactly when [count()] is 0, and iteration then yields nothing.  So a
    default-constructed and a fill-constructed buffer both iterate as
    empty, although every slot of the latter holds the fill value. *)
Theorem empty_buffer_iterates_empty
  (TYPE : Type) (LEN : Z) (b : CircularBuffer TYPE) :
  0 < LEN -> LEN <= INT_MAX -> invariant LEN b ->
  (iterator_neq (begin LEN b) (end_ LEN b) = false <-> count b = 0)
  /\ (count b = 0 -> iterate LEN b = Some [])
  /\ (forall uninit : Z -> TYPE, iterate LEN (default_ctor uninit) = Some [])
  /\ (forall (uninit : Z -> TYPE) (v : TYPE),
        exists b', fill_ctor LEN uninit v = Some b'
                   /\ iterate LEN b' = Some []
                   /\ get LEN b' 0 = v).
Proof.
  intros Hpos Hint [Hc Ht]. unfold count. split; [| split; [| split]].
  - unfold iterator_neq. rewrite begin_offset, end_offset.
    rewrite negb_false_iff, Z.eqb_eq, to_int_eq_iff.
    split; intros H; wrap_arith.
  - intros Hz. rewrite iterate_slots, Hz. reflexivity.
  - intros uninit. rewrite iterate_slots. reflexivity.
  - intros uninit v. unfold fill_ctor.
    destruct (fill_loop LEN Hpos Hint uninit v) as (d & -> & Hd).
    eexists. split; [reflexivity |]. split.
    + rewrite iterate_slots. reflexivity.
    + unfold get. simpl. apply Hd. apply Z.mod_pos_bound. assumption.
Qed.

Lemma empty_buffer_iterates_empty_witness :
  let b := next 3 (default_ctor (fun _ => 0)) in
  0 < 3 /\ 3 <= INT_MAX /\ invariant 3 b
  /\ (iterator_neq (begin 3 b) (end_ 3 b) = false <-> count b = 0)
  /\ (count b = 0 -> iterate 3 b = Some [])
  /\ (forall uninit : Z -> Z, iterate 3 (default_ctor uninit) = Some [])
  /\ (forall (uninit : Z -> Z) (v : Z),
        exists b', fill_ctor 3 uninit v = Some b'
                   /\ iterate 3 b' = Some []
                   /\ get 3 b' 0 = v).
Proof.
  intros b.
  assert (Hpos : 0 < 3) by lia.
  assert (Hint : 3 <= INT_MAX) by (unfold INT_MAX; lia).
  assert (Hinv : invariant 3 b) by (vm_compute; repeat split; discriminate).
  split; [exact Hpos |]. split; [exact Hint |]. split; [exact Hinv |].
  exact (empty_buffer_iterates_empty Z 3 b Hpos Hint Hinv).
Defined.

(** X12: for a capacity up to [INT_MAX] the member [length] is [LEN], and
    in every state of a buffer, reached from any constructor by any
    operations, [0 <= index() < length] and [0 <= count() <= length]. *)
Theorem reachable_within_length
  (TYPE : Type) (LEN : Z) (b : CircularBuffer TYPE) :
  0 < LEN -> LEN <= INT_MAX -> reachable LEN b ->
  Members.length LEN = LEN
  /\ 0 <= index b < Members.length LEN
  /\ 0 <= count b <= Members.length LEN.
Proof.
  intros Hpos Hint Hb. unfold Members.length, index, count.
  rewrite to_int_small by wrap_arith.
  split; [reflexivity |]. now apply reachable_invariant.
Qed.

Lemma reachable_within_length_witness :
  let b := run 3 (OpAppend 5) (run 3 OpPrev (list_ctor 3 (fun _ => 0) [1; 2; 3; 4])) in
  0 < 3 /\ 3 <= INT_MAX /\ reachable 3 b
  /\ Members.length 3 = 3
  /\ 0 <= index b < Members.length 3
  /\ 0 <= count b <= Members.length 3.
Proof.
  intros b.
  assert (Hpos : 0 < 3) by lia.
  assert (Hint : 3 <= INT_MAX) by (unfold INT_MAX; lia).
  assert (Hb : reachable 3 b).
  { apply reachable_run, reachable_run, reachable_list. }
  split; [exact Hpos |]. split; [exact Hint |]. split; [exact Hb |].
  exact (reachable_within_length Z 3 b Hpos Hint Hb).
Defined.

Lemma store_same {TYPE : Type} (d : Z -> TYPE) (c : Z) (v : TYPE) :
  store d c v c = v.
Proof. unfold store. now rewrite Z.eqb_refl. Qed.

Lemma store_other {TYPE : Type} (d : Z -> TYPE) (c s : Z) (v : TYPE) :
  s <> c -> store d c v s = d s.
Proof. intros Hs. unfold store. now destruct (Z.eqb_spec s c). Qed.

(** The slot read at position [j] after an append, in terms of the cursor
    before it. *)
Lemma slot_after_append (LEN c t j : Z) :
  0 < LEN -> ((c + 1) mod LEN - t + j) mod LEN = (c + 1 - t + j) mod LEN.
Proof.
  intros Hpos.
  replace ((c + 1) mod LEN - t + j) with ((c + 1) mod LEN + (j - t)) by lia.
  rewrite Zplus_mod_idemp_l. f_equal. lia.
Qed.

(** X10: an append slides the iteration by one value.  In a state that
    satisfies the invariant (and [3 * LEN <= 2^32 + 1]), iteration after
    [append(v)] yields the values of the iteration before it followed by
    [v], without the first of them when the buffer was full. *)
Theorem append_slides_iteration
  (TYPE : Type) (LEN : Z) (b : CircularBuffer TYPE) (v : TYPE) :
  0 < LEN -> 3 * LEN <= UINT_MODULUS + 1 -> invariant LEN b ->
  exists xs,
    iterate LEN b = Some xs
    /\ iterate LEN (append LEN v b)
       = Some ((if count b <? LEN then xs else tl xs) ++ [v]).
Proof.
  intros Hpos Hsmall Hinv. unfold count.
  assert (Hint : LEN <= INT_MAX) by (unfold UINT_MODULUS, INT_MAX in *; lia).
  pose proof (append_invariant LEN Hpos Hint v b Hinv) as Hinv'.
  rewrite (iterate_window LEN Hpos Hsmall b Hinv).
  rewrite (iterate_window LEN Hpos Hsmall _ Hinv').
  rewrite append_counter, append_total by assumption.
  eexists. split; [reflexivity |]. f_equal.
  destruct Hinv as [Hc Ht].
  assert (Hcm : counter b mod LEN = counter b) by now apply Z.mod_small.
  change (data (append LEN v b)) with (store (data b) (counter b) v).
  destruct (Z.ltb_spec (total b) LEN) as [Hlt | Hge].
  - rewrite Z.min_l by lia.
    replace (Z.to_nat (total b + 1)) with (S (Z.to_nat (total b))) by lia.
    rewrite seq_S, map_app. simpl map. f_equal.
    + apply map_ext_in. intros j Hj. apply in_seq in Hj.
      rewrite slot_after_append by assumption.
      replace (counter b + 1 - (total b + 1) + Z.of_nat j)
        with (counter b - total b + Z.of_nat j) by lia.
      apply store_other. rewrite <- Hcm at 2.
      apply slots_apart; lia.
    + f_equal. rewrite slot_after_append by assumption.
      rewrite ?Nat.add_0_l, Z2Nat.id by lia.
      replace (counter b + 1 - (total b + 1) + total b) with (counter b) by lia.
      rewrite Hcm. apply store_same.
  - assert (Hfull : total b = LEN) by lia. rewrite Hfull.
    rewrite Z.min_r by lia.
    replace (Z.to_nat LEN) with (S (Z.to_nat (LEN - 1))) by lia.
    rewrite seq_S at 1. rewrite map_app. simpl map.
    simpl tl.
    rewrite <- seq_shift, map_map. f_equal.
    + apply map_ext_in. intros j Hj. apply in_seq in Hj.
      rewrite slot_after_append by assumption.
      replace (counter b - LEN + Z.of_nat (S j))
        with (counter b + 1 - LEN + Z.of_nat j) by lia.
      apply store_other. rewrite <- Hcm at 2.
      apply slots_apart; lia.
    + f_equal. rewrite slot_after_append by assumption.
      rewrite ?Nat.add_0_l, Z2Nat.id by lia.
      replace (counter b + 1 - LEN + (LEN - 1)) with (counter b) by lia.
      rewrite Hcm. apply store_same.
Qed.

Lemma append_slides_iteration_witness :
  let b := next 3 (populate 3 [10; 20; 30] (default_ctor (fun _ => 0))) in
  0 < 3 /\ 3 * 3 <= UINT_MODULUS + 1 /\ invariant 3 b
  /\ iterate 3 b = Some [20; 30; 10]
  /\ iterate 3 (append 3 40 b) = Some [30; 10; 40]
  /\ exists xs,
       iterate 3 b = Some xs
       /\ iterate 3 (append 3 40 b)
          = Some ((if count b <? 3 then xs else tl xs) ++ [40]).
Proof.
  intros b.
  assert (Hpos : 0 < 3) by lia.
  assert (Hsmall : 3 * 3 <= UINT_MODULUS + 1) by (unfold UINT_MODULUS; lia).
  assert (Hinv : invariant 3 b) by (vm_compute; repeat split; discriminate).
  split; [exact Hpos |]. split; [exact Hsmall |]. split; [exact Hinv |].
  split; [reflexivity |]. split; [reflexivity |].
  exact (append_slides_iteration Z 3 b 40 Hpos Hsmall Hinv).
Defined.

(** X13: what iteration does in every state and for every capacity, with
    the wrap-around of [counter + LEN + LEN - total]: it ends, and its
    [j]-th value is the slot [((counter + 2 LEN - total + j) mod 2^32) mod
    LEN], for [j] below [total] taken as an [unsigned int]. *)
Theorem iteration_slots_with_wrap_around
  (TYPE : Type) (LEN : Z) (b : CircularBuffer TYPE) :
  iterate LEN b
  = Some (map (fun j => data b ((to_unsigned (index b + 2 * LEN - count b + Z.of_nat j))
                                mod LEN))
              (seq 0 (Z.to_nat (to_unsigned (count b))))).
Proof.
  rewrite iterate_slots. unfold index, count, uint_rem. f_equal.
  apply map_ext. intros j. do 3 f_equal. lia.
Qed.

(** The appends of [l] leave a slot that is none of the [N] slots from the
    cursor on as it was. *)
Lemma populate_frame {TYPE : Type} (LEN : Z) (l : list TYPE) (k : Z) :
  0 < LEN -> LEN <= INT_MAX ->
  forall b : CircularBuffer TYPE,
    invariant LEN b ->
    (forall j, 0 <= j < Z.of_nat (length l) -> k <> (counter b + j) mod LEN) ->
    data (populate LEN l b) k = data b k.
Proof.
  intros Hpos Hint.
  induction l as [| x l IH]; intros b Hinv Hk; [reflexivity |].
  simpl populate. rewrite IH.
  - simpl. apply store_other.
    specialize (Hk 0). rewrite Z.add_0_r, Z.mod_small in Hk by apply Hinv.
    apply Hk. simpl length. lia.
  - now apply append_invariant.
  - intros j Hj. rewrite append_counter by assumption.
    rewrite Zplus_mod_idemp_l.
    replace (counter b + 1 + j) with (counter b + (j + 1)) by lia.
    apply Hk. simpl length. lia.
Qed.

(** X14: appends write only the slots from the cursor on.  From a state
    that satisfies the invariant, after the appends of [N] values every
    slot other than [(index() + j) mod LEN], [j < N], holds what it held
    before; after a fill constructor and [N] appends the slots [N .. LEN-1]
    still hold the fill value. *)
Theorem appends_write_only_from_cursor
  (TYPE : Type) (LEN : Z) (b : CircularBuffer TYPE) (l : list TYPE) (k : Z) :
  0 < LEN -> LEN <= INT_MAX -> invariant LEN b ->
  ((forall j, 0 <= j < Z.of_nat (length l) -> k <> (index b + j) mod LEN) ->
   data (populate LEN l b) k = data b k)
  /\ (forall (uninit : Z -> TYPE) (v : TYPE) (b' : CircularBuffer TYPE),
        fill_ctor LEN uninit v = Some b' ->
        Z.of_nat (length l) <= k < LEN ->
        data (populate LEN l b') k = v).
Proof.
  intros Hpos Hint Hinv. split.
  - now apply populate_frame.
  - intros uninit v b' Hfill Hk. unfold fill_ctor in Hfill.
    destruct (fill_loop LEN Hpos Hint uninit v) as (d & Hd & Hv).
    rewrite Hd in Hfill. injection Hfill as <-.
    rewrite populate_frame; try assumption.
    + simpl. apply Hv. lia.
    + unfold invariant. simpl. lia.
    + intros j Hj. simpl counter. rewrite Z.add_0_l, Z.mod_small by lia. lia.
Qed.

Lemma appends_write_only_from_cursor_witness :
  let b := next 3 (populate 3 [10; 20; 30] (default_ctor (fun _ => 0))) in
  0 < 3 /\ 3 <= INT_MAX /\ invariant 3 b
  /\ index b = 1
  /\ data (populate 3 [5; 7] b) 0 = 10
  /\ ((forall j, 0 <= j < Z.of_nat (length [5; 7]) -> 0 <> (index b + j) mod 3) ->
      data (populate 3 [5; 7] b) 0 = data b 0)
  /\ (forall (uninit : Z -> Z) (v : Z) (b' : CircularBuffer Z),
        fill_ctor 3 uninit v = Some b' ->
        Z.of_nat (length [5; 7]) <= 0 < 3 ->
        data (populate 3 [5; 7] b') 0 = v).
Proof.
  intros b.
  assert (Hpos : 0 < 3) by lia.
  assert (Hint : 3 <= INT_MAX) by (unfold INT_MAX; lia).
  assert (Hinv : invariant 3 b) by (vm_compute; repeat split; discriminate).
  split; [exact Hpos |]. split; [exact Hint |]. split; [exact Hinv |].
  split; [reflexivity |]. split; [reflexivity |].
  exact (appends_write_only_from_cursor Z 3 b [5; 7] 0 Hpos Hint Hinv).
Defined.

(** A fill-constructed buffer of capacity 3 after two appends: the third
    slot still holds the fill value 9, which is the [maximum()]. *)
Example fill_then_two_appends :
  exists b,
    fill_ctor 3 (fun _ => 0) 9 = Some b
    /\ data (populate 3 [5; 7] b) 2 = 9
    /\ minimum 3 (populate 3 [5; 7] b) = Some 5
    /\ maximum 3 (populate 3 [5; 7] b) = Some 9
    /\ iterate 3 (populate 3 [5; 7] b) = Some [5; 7].
Proof. eexists. split; [reflexivity |]. vm_compute. repeat split. Qed.
